(** * ellipsoid-fit: the fitting routine of [src/ellipsoid_fit/fit.cpp]

    A shallow embedding of [ellipsoid::fit] and the properties of its
    algebraic steps.

    The routine is written against Eigen with [double] scalars.  The
    embedding keeps Eigen's scalar type a parameter (class [Scalar]):
    - every definition is stated once, over any scalar type;
    - structural facts (column layout, zeroed coefficients, data flow)
      are proved for every scalar type, IEEE doubles included;
    - algebraic identities are proved under the laws of a commutative
      ring, that is for exact arithmetic; rounding is outside of them;
    - the radii line, whose behaviour on NaN and infinities matters, is
      studied at the instance [binary64] built on [spec_float];
    - the recovery of a known ellipsoid is proved under the laws of a
      field, and run at the instance [real] built on [R].

    Eigen's decompositions ([bdcSvd().solve], [EigenSolver]) and the
    repository's [eigenOrder::leastRotationAngle], none of which is
    defined in [fit.cpp], are parameters (class [Kernels]). *)

From Stdlib Require Import Reals Lra.
From Stdlib Require Import List Arith ZArith Lia Bool Ring Field.
From Stdlib Require Import Permutation.
From Stdlib Require Import Floats.SpecFloat.
Import ListNotations.

Set Implicit Arguments.

(** ** Scalars *)

(** The operations the routine uses on Eigen's [Scalar]. *)
Class Scalar (F : Type) : Type := {
  s_zero : F;
  s_one : F;
  s_add : F -> F -> F;
  s_mul : F -> F -> F;
  s_sub : F -> F -> F;
  s_opp : F -> F;
  s_div : F -> F -> F;
  s_sqrt : F -> F
}.

Declare Scope scalar_scope.
#[warnings="-hiding-delimiting-key"]
Delimit Scope scalar_scope with F.
Notation "0" := s_zero : scalar_scope.
Notation "1" := s_one : scalar_scope.
Infix "+" := s_add : scalar_scope.
Infix "*" := s_mul : scalar_scope.
Infix "-" := s_sub : scalar_scope.
Infix "/" := s_div : scalar_scope.
Notation "- x" := (s_opp x) : scalar_scope.

(** The literal [2.] of the source. *)
Definition two {F} `{Scalar F} : F := (1 + 1)%F.

(** ** Failure and uninitialised storage *)

Definition bind {A B} (m : option A) (k : A -> option B) : option B :=
  match m with
  | Some a => k a
  | None => None
  end.

Notation "x <- m ;; k" := (bind m (fun x => k))
  (at level 61, m at next level, right associativity).

(** A freshly declared (or resized) Eigen object holds unspecified
    entries: a slot is [None] until the program writes it. *)
Definition slots (A : Type) : Type := list (option A).

Definition uninit (A : Type) (n : nat) : slots A := repeat None n.

Fixpoint replace {A} (i : nat) (a : A) (l : list A) : list A :=
  match l, i with
  | [], _ => []
  | _ :: t, O => a :: t
  | h :: t, S j => h :: replace j a t
  end.

(** Writing outside of the object is an access out of range. *)
Definition write {A} (i : nat) (a : A) (s : slots A) : option (slots A) :=
  if i <? length s then Some (replace i (Some a) s) else None.

Fixpoint write_segment {A} (i : nat) (l : list A) (s : slots A)
  : option (slots A) :=
  match l with
  | [] => Some s
  | a :: t => s' <- write i a s ;; write_segment (S i) t s'
  end.

(** Every slot has been written. *)
Fixpoint populated {A} (s : slots A) : option (list A) :=
  match s with
  | [] => Some []
  | None :: _ => None
  | Some a :: t => l <- populated t ;; Some (a :: l)
  end.

(** ** Vectors and matrices *)

Section Vectors.
Context {F : Type} `{Scalar F}.
Local Open Scope scalar_scope.

Definition vec : Type := list F.

(** [u(i)]. *)
Definition coeff (u : vec) (i : nat) : option F := nth_error u i.

(** [u.segment<n>(start)]. *)
Definition segment (n start : nat) (u : vec) : option vec :=
  if start + n <=? length u then Some (firstn n (skipn start u)) else None.

Fixpoint map2 (f : F -> F -> F) (a b : vec) : vec :=
  match a, b with
  | x :: a', y :: b' => f x y :: map2 f a' b'
  | _, _ => []
  end.

Definition cwiseProduct : vec -> vec -> vec := map2 s_mul.
Definition vadd : vec -> vec -> vec := map2 s_add.
Definition vsub : vec -> vec -> vec := map2 s_sub.
Definition vscale (k : F) (a : vec) : vec := map (s_mul k) a.
Definition vopp (a : vec) : vec := map s_opp a.
Definition setOnes (n : nat) : vec := repeat 1 n.
Definition setConstant (n : nat) (k : F) : vec := repeat k n.
Definition setZero (n : nat) : vec := repeat 0 n.

(** [a.cwiseInverse()] is [1/a(i)] and [a.cwiseSqrt()] is [sqrt(a(i))]. *)
Definition cwiseInverse (a : vec) : vec := map (fun e => 1 / e) a.
Definition cwiseSqrt (a : vec) : vec := map s_sqrt a.

Fixpoint dot (a b : vec) : F :=
  match a, b with
  | x :: a', y :: b' => x * y + dot a' b'
  | _, _ => 0
  end.

(** A matrix is the list of its rows, except for the design matrix,
    which the source fills column by column and which is kept as the
    list of its columns. *)
Definition matrix : Type := list vec.

(** [M.transpose()], for [M] of [n] columns. *)
Definition transpose (n : nat) (M : matrix) : matrix :=
  map (fun j => map (fun r => nth j r 0) M) (seq 0 n).

(** [A * B], for [B] of [n] columns. *)
Definition mmul (n : nat) (A B : matrix) : matrix :=
  map (fun r => map (fun c => dot r c) (transpose n B)) A.

(** [M.block<3,3>(0,0)]. *)
Definition block33 (M : matrix) : matrix := map (firstn 3) (firstn 3 M).

(** [M(i,j)]. *)
Definition entry (M : matrix) (i j : nat) : option F :=
  r <- nth_error M i ;; nth_error r j.

(** [M / k]. *)
Definition mdiv (M : matrix) (k : F) : matrix :=
  map (map (fun a => a / k)) M.
End Vectors.

(** ** The external kernels *)

(** What [fit] calls and [fit.cpp] does not define:
    - [M.bdcSvd(ComputeFullU | ComputeFullV).solve(b)];
    - [EigenSolver<Matrix3d>], read through [eigenvalues().real()] and
      [eigenvectors().real()];
    - [eigenOrder::leastRotationAngle], which reorders its two arguments
      in place: here it returns the reordered pair. *)
Class Kernels (F : Type) : Type := {
  bdcSvd_solve : list (list F) -> list F -> list F;
  EigenSolver : list (list F) -> list F * list (list F);
  leastRotationAngle : list F * list (list F) -> list F * list (list F)
}.

(** Eigen's static sizes: a solution has as many entries as the (square)
    system has rows, [EigenSolver<Matrix3d>] yields a [Vector3d], and the
    reordering keeps it one. *)
Record KernelShapes {F} (K : Kernels F) : Prop := {
  solve_size : forall M b, length (bdcSvd_solve M b) = length M;
  eigen_size : forall M, length M = 3 -> length (fst (EigenSolver M)) = 3;
  order_size : forall p, length (fst (leastRotationAngle p)) = length (fst p)
}.

(** ** The data model *)

(** Modelled from the spec: the enumeration is declared in
    [ellipsoid/fit.h], which is not among the sources. Its seven variants
    are the cases of the two [switch]es of [fit]. *)
Inductive EllipsoidType : Type :=
  | Arbitrary
  | XYEqual
  | XZEqual
  | Sphere
  | Aligned
  | AlignedXYEqual
  | AlignedXZEqual.

(** Modelled from the spec: the structure is declared in
    [ellipsoid/fit.h] too. [fit] assigns its two members, [center] and
    [radii], both of them vectors of three entries. *)
Record Parameters (F : Type) : Type := {
  center : list F;
  radii : list F
}.

(** The caller's optional destinations after the call: [None] is a
    destination that was not written. *)
Record Outputs (F : Type) : Type := {
  coefficients : option (list F);
  eval_out : option (list F);
  evec_column_out : option (list (list F))
}.

(** An output pointer is null or designates a destination. *)
Inductive pointer : Type := nullptr | dest.

Definition store {A} (p : pointer) (a : A) : option A :=
  match p with
  | nullptr => None
  | dest => Some a
  end.

(** ** The routine *)

Section Fit.
Context {F : Type} `{Scalar F} `{Kernels F}.
Local Open Scope scalar_scope.

(** [data] is an [Eigen::Matrix<double, Dynamic, 3>]: one row per point. *)
Definition points : Type := list (F * F * F).

Definition rows (data : points) : nat := length data.
Definition col_x (data : points) : vec := map (fun p => fst (fst p)) data.
Definition col_y (data : points) : vec := map (fun p => snd (fst p)) data.
Definition col_z (data : points) : vec := map (fun p => snd p) data.

(** [D.resize(n, k)]: [k] columns, none of them written yet; the [n]
    entries of a column come with the vector assigned to it. *)
Definition resize (n k : nat) : slots (@vec F) := uninit vec k.

(** The first [switch]: the design matrix, column by column. *)
Definition design_matrix (type : EllipsoidType) (data : points)
  : option (@matrix F) :=
  let x := col_x data in
  let y := col_y data in
  let z := col_z data in
  let x_sq := cwiseProduct x x in
  let y_sq := cwiseProduct y y in
  let z_sq := cwiseProduct z z in
  match type with
  | Arbitrary =>
      D <- write 0 (vsub (vadd x_sq y_sq) (vscale two z_sq))
             (resize (rows data) 9) ;;
      D <- write 1 (vsub (vadd x_sq z_sq) (vscale two y_sq)) D ;;
      D <- write 2 (vscale two (cwiseProduct x y)) D ;;
      D <- write 3 (vscale two (cwiseProduct x z)) D ;;
      D <- write 4 (vscale two (cwiseProduct y z)) D ;;
      D <- write 5 (vscale two x) D ;;
      D <- write 6 (vscale two y) D ;;
      D <- write 7 (vscale two z) D ;;
      D <- write 8 (setOnes (rows data)) D ;;
      populated D
  | XYEqual =>
      D <- write 0 (vsub (vadd x_sq y_sq) (vscale two z_sq))
             (resize (rows data) 8) ;;
      D <- write 1 (vscale two (cwiseProduct x y)) D ;;
      D <- write 2 (vscale two (cwiseProduct x z)) D ;;
      D <- write 3 (vscale two (cwiseProduct y z)) D ;;
      D <- write 4 (vscale two x) D ;;
      D <- write 5 (vscale two y) D ;;
      D <- write 6 (vscale two z) D ;;
      D <- write 7 (setOnes (rows data)) D ;;
      populated D
  | XZEqual =>
      D <- write 0 (vsub (vadd x_sq z_sq) (vscale two y_sq))
             (resize (rows data) 8) ;;
      D <- write 1 (vscale two (cwiseProduct x y)) D ;;
      D <- write 2 (vscale two (cwiseProduct x z)) D ;;
      D <- write 3 (vscale two (cwiseProduct y z)) D ;;
      D <- write 4 (vscale two x) D ;;
      D <- write 5 (vscale two y) D ;;
      D <- write 6 (vscale two z) D ;;
      D <- write 7 (setOnes (rows data)) D ;;
      populated D
  | Sphere =>
      D <- write 0 (vscale two x) (resize (rows data) 4) ;;
      D <- write 1 (vscale two y) D ;;
      D <- write 2 (vscale two z) D ;;
      D <- write 3 (setOnes (rows data)) D ;;
      populated D
  | Aligned =>
      D <- write 0 (vsub (vadd x_sq y_sq) (vscale two z_sq))
             (resize (rows data) 6) ;;
      D <- write 1 (vsub (vadd x_sq z_sq) (vscale two y_sq)) D ;;
      D <- write 2 (vscale two x) D ;;
      D <- write 3 (vscale two y) D ;;
      D <- write 4 (vscale two z) D ;;
      D <- write 5 (setOnes (rows data)) D ;;
      populated D
  | AlignedXYEqual =>
      D <- write 0 (vsub (vadd x_sq y_sq) (vscale two z_sq))
             (resize (rows data) 5) ;;
      D <- write 1 (vscale two x) D ;;
      D <- write 2 (vscale two y) D ;;
      D <- write 3 (vscale two z) D ;;
      D <- write 4 (setOnes (rows data)) D ;;
      populated D
  | AlignedXZEqual =>
      D <- write 0 (vsub (vadd x_sq z_sq) (vscale two y_sq))
             (resize (rows data) 5) ;;
      D <- write 1 (vscale two x) D ;;
      D <- write 2 (vscale two y) D ;;
      D <- write 3 (vscale two z) D ;;
      D <- write 4 (setOnes (rows data)) D ;;
      populated D
  end.

(** [d2 = x_sq + y_sq + z_sq], the right-hand side. *)
Definition d2 (data : points) : vec :=
  let x := col_x data in
  let y := col_y data in
  let z := col_z data in
  vadd (vadd (cwiseProduct x x) (cwiseProduct y y)) (cwiseProduct z z).

(** [D.transpose() * D] and [D.transpose() * d2], [D] by its columns. *)
Definition normal_matrix (D : @matrix F) : matrix :=
  map (fun ci => map (fun cj => dot ci cj) D) D.

Definition normal_rhs (D : @matrix F) (b : vec) : vec :=
  map (fun ci => dot ci b) D.

(** The solution of the normal equations. *)
Definition solve_normal (D : @matrix F) (b : vec) : vec :=
  bdcSvd_solve (normal_matrix D) (normal_rhs D b).

(** The second [switch]: back to the ten coefficients of the
    conventional algebraic form. [v] is declared without a value. *)
Definition back_substitute (type : EllipsoidType) (u : @vec F)
  : option (slots F) :=
  let v := uninit F 10 in
  match type with
  | Arbitrary =>
      u0 <- coeff u 0 ;; u1 <- coeff u 1 ;;
      v <- write 0 (u0 + u1 - 1) v ;;
      v <- write 1 (u0 - two * u1 - 1) v ;;
      v <- write 2 (u1 - two * u0 - 1) v ;;
      s <- segment 7 2 u ;;
      write_segment 3 s v
  | XYEqual =>
      u0 <- coeff u 0 ;;
      v <- write 0 (u0 - 1) v ;;
      v <- write 1 (u0 - 1) v ;;
      v <- write 2 (- two * u0 - 1) v ;;
      s <- segment 7 1 u ;;
      write_segment 3 s v
  | XZEqual =>
      u0 <- coeff u 0 ;;
      v <- write 0 (u0 - 1) v ;;
      v <- write 1 (- two * u0 - 1) v ;;
      v <- write 2 (u0 - 1) v ;;
      s <- segment 7 1 u ;;
      write_segment 3 s v
  | Sphere =>
      v <- write_segment 0 (setConstant 3 (s_opp 1)) v ;;
      v <- write_segment 3 (setZero 3) v ;;
      s <- segment 4 0 u ;;
      write_segment 6 s v
  | Aligned =>
      u0 <- coeff u 0 ;; u1 <- coeff u 1 ;;
      v <- write 0 (u0 + u1 - 1) v ;;
      v <- write 1 (u0 - two * u1 - 1) v ;;
      v <- write 2 (u1 - two * u0 - 1) v ;;
      v <- write_segment 3 (setZero 3) v ;;
      s <- segment 4 2 u ;;
      write_segment 6 s v
  | AlignedXYEqual =>
      u0 <- coeff u 0 ;;
      v <- write 0 (u0 - 1) v ;;
      v <- write 1 (u0 - 1) v ;;
      v <- write 2 (- two * u0 - 1) v ;;
      v <- write_segment 3 (setZero 3) v ;;
      s <- segment 4 1 u ;;
      write_segment 6 s v
  | AlignedXZEqual =>
      u0 <- coeff u 0 ;;
      v <- write 0 (u0 - 1) v ;;
      v <- write 1 (- two * u0 - 1) v ;;
      v <- write 2 (u0 - 1) v ;;
      v <- write_segment 3 (setZero 3) v ;;
      s <- segment 4 1 u ;;
      write_segment 6 s v
  end.

(** The coefficients once all of them are written. *)
Definition quadric (type : EllipsoidType) (data : points)
  : option (@vec F) :=
  D <- design_matrix type data ;;
  v <- back_substitute type (solve_normal D (d2 data)) ;;
  populated v.

(** [A << v(0), v(3), v(4), v(6), v(3), ...]: the comma initialiser
    fills the matrix row by row. *)
Definition assemble (v : @vec F) : option (@matrix F) :=
  v0 <- coeff v 0 ;; v1 <- coeff v 1 ;; v2 <- coeff v 2 ;;
  v3 <- coeff v 3 ;; v4 <- coeff v 4 ;; v5 <- coeff v 5 ;;
  v6 <- coeff v 6 ;; v7 <- coeff v 7 ;; v8 <- coeff v 8 ;;
  v9 <- coeff v 9 ;;
  Some [ [v0; v3; v4; v6];
         [v3; v1; v5; v7];
         [v4; v5; v2; v8];
         [v6; v7; v8; v9] ].

(** [-A.block<3,3>(0,0).bdcSvd(..).solve(v.segment<3>(6))]: the unary
    minus applies to the solution. *)
Definition find_center (A : @matrix F) (v : @vec F) : option (@vec F) :=
  b <- segment 3 6 v ;;
  Some (vopp (bdcSvd_solve (block33 A) b)).

(** [T]: the identity, its last row overwritten by the center. *)
Definition translation (c : @vec F) : option (@matrix F) :=
  cx <- coeff c 0 ;; cy <- coeff c 1 ;; cz <- coeff c 2 ;;
  Some [ [1; 0; 0; 0];
         [0; 1; 0; 0];
         [0; 0; 1; 0];
         [cx; cy; cz; 1] ].

(** [R = T * A * T.transpose()]. *)
Definition translate (T A : @matrix F) : matrix :=
  mmul 4 (mmul 4 T A) (transpose 4 T).

(** [R.block<3,3>(0,0) / -R(3,3)], the argument of [EigenSolver]. *)
Definition eigen_input (R : @matrix F) : option (@matrix F) :=
  r33 <- entry R 3 3 ;;
  Some (mdiv (block33 R) (- r33)).

(** From the coefficients to the center and the eigenproblem. *)
Definition centered (v : @vec F) : option (@vec F * @matrix F) :=
  A <- assemble v ;;
  c <- find_center A v ;;
  T <- translation c ;;
  M <- eigen_input (translate T A) ;;
  Some (c, M).

(** [eval.cwiseInverse().cwiseSqrt()]. *)
Definition compute_radii (eval : @vec F) : vec :=
  cwiseSqrt (cwiseInverse eval).

(** The four-pointer overload, the one that does the work. *)
Definition fit_full (data : points)
    (coefficients_p eval_p evec_column_p : pointer)
    (type : EllipsoidType) : option (Parameters F * Outputs F) :=
  v <- quadric type data ;;
  cM <- centered v ;;
  let solver := EigenSolver (snd cM) in
  let ordered := leastRotationAngle solver in
  let eval := fst ordered in
  let evec_column := snd ordered in
  let params := {| center := fst cM; radii := compute_radii eval |} in
  Some (params,
        {| coefficients := store coefficients_p v;
           eval_out := store eval_p eval;
           evec_column_out := store evec_column_p evec_column |}).

(** The three other overloads. *)
Definition fit (data : points) (type : EllipsoidType) :=
  fit_full data nullptr nullptr nullptr type.

Definition fit_coefficients (data : points) (coefficients_p : pointer)
    (type : EllipsoidType) :=
  fit_full data coefficients_p nullptr nullptr type.

Definition fit_eigen (data : points) (eval_p evec_column_p : pointer)
    (type : EllipsoidType) :=
  fit_full data nullptr eval_p evec_column_p type.
End Fit.

(** ** Two scalar types to run the routine on *)

(** Exact integer arithmetic; division and square root are the integer
    ones. *)
#[export] Instance Z_scalar : Scalar Z := {|
  s_zero := 0%Z; s_one := 1%Z;
  s_add := Z.add; s_mul := Z.mul; s_sub := Z.sub; s_opp := Z.opp;
  s_div := Z.div; s_sqrt := Z.sqrt
|}.

(** IEEE 754 binary64, the [double] of the source. *)
Definition prec : Z := 53.
Definition emax : Z := 1024.

#[export] Instance binary64 : Scalar spec_float := {|
  s_zero := S754_zero false;
  s_one := SFone prec emax;
  s_add := SFadd prec emax;
  s_mul := SFmul prec emax;
  s_sub := SFsub prec emax;
  s_opp := SFopp;
  s_div := SFdiv prec emax;
  s_sqrt := SFsqrt prec emax
|}.

(** Stand-ins for the kernels, to run the routine: they only respect the
    sizes. Every solution is the constant vector of [k], the eigenvalues
    are read off the first column and nothing is reordered. *)
Definition stub_kernels {F : Type} (k : F) `{Scalar F} : Kernels F := {|
  bdcSvd_solve := fun M _ => repeat k (length M);
  EigenSolver := fun M => (map (fun r => nth 0 r s_zero) M, M);
  leastRotationAngle := fun p => p
|}.

#[export] Instance Z_kernels : Kernels Z := stub_kernels 0%Z.

Definition binary64_kernels : Kernels spec_float :=
  stub_kernels (SFopp (SFone prec emax)).

(** One entry of [eval.cwiseInverse().cwiseSqrt()] in binary64. *)
Definition radius (e : spec_float) : spec_float :=
  SFsqrt prec emax (SFdiv prec emax (SFone prec emax) e).

Definition is_nan (x : spec_float) : bool :=
  match x with
  | S754_nan => true
  | _ => false
  end.


(** Finite with the sign bit set: a double below zero, or the zero [-0]. *)
Definition negative_finite (x : spec_float) : bool :=
  match x with
  | S754_finite true _ _ | S754_zero true => true
  | _ => false
  end.

(** The sign of a rounded result is the one asked for. *)
Definition signed_as (sx : bool) (r : spec_float) : Prop :=
  match r with
  | S754_zero s | S754_infinity s | S754_finite s _ _ => s = sx
  | S754_nan => True
  end.

(** ** What the properties are stated with *)

Section Layout.
Context {F : Type} `{Scalar F}.
Local Open Scope scalar_scope.

(** The number of columns of each variant. *)
Definition design_cols (type : EllipsoidType) : nat :=
  match type with
  | Arbitrary => 9
  | XYEqual | XZEqual => 8
  | Sphere => 4
  | Aligned => 6
  | AlignedXYEqual | AlignedXZEqual => 5
  end.

(** The entries of the row of a point, one function per column. *)
Definition design_layout (type : EllipsoidType) : list (F * F * F -> F) :=
  let xy2z := fun '(x, y, z) => x * x + y * y - two * (z * z) in
  let xz2y := fun '(x, y, z) => x * x + z * z - two * (y * y) in
  let xy := fun '(x, y, z) => two * (x * y) in
  let xz := fun '(x, y, z) => two * (x * z) in
  let yz := fun '(x, y, z) => two * (y * z) in
  let x2 := fun '(x, y, z) => two * x in
  let y2 := fun '(x, y, z) => two * y in
  let z2 := fun '(x, y, z) => two * z in
  let ones := fun _ : F * F * F => 1 in
  match type with
  | Arbitrary => [xy2z; xz2y; xy; xz; yz; x2; y2; z2; ones]
  | XYEqual => [xy2z; xy; xz; yz; x2; y2; z2; ones]
  | XZEqual => [xz2y; xy; xz; yz; x2; y2; z2; ones]
  | Sphere => [x2; y2; z2; ones]
  | Aligned => [xy2z; xz2y; x2; y2; z2; ones]
  | AlignedXYEqual => [xy2z; x2; y2; z2; ones]
  | AlignedXZEqual => [xz2y; x2; y2; z2; ones]
  end.

Definition design_row (type : EllipsoidType) (p : F * F * F) : vec :=
  map (fun f => f p) (design_layout type).

(** The constraints a variant puts on the ten coefficients. *)
Definition cross_terms_zero (v : @vec F) : Prop :=
  segment 3 3 v = Some [0; 0; 0].

Definition variant_constraint (type : EllipsoidType) (v : @vec F) : Prop :=
  match type with
  | Arbitrary => True
  | XYEqual => coeff v 0 = coeff v 1
  | XZEqual => coeff v 0 = coeff v 2
  | Sphere =>
      coeff v 0 = coeff v 1 /\ coeff v 1 = coeff v 2 /\ cross_terms_zero v
  | Aligned => cross_terms_zero v
  | AlignedXYEqual => coeff v 0 = coeff v 1 /\ cross_terms_zero v
  | AlignedXZEqual => coeff v 0 = coeff v 2 /\ cross_terms_zero v
  end.

(** The quadric of the comment above the first [switch]:
    [Ax^2 + By^2 + Cz^2 + 2Dxy + 2Exz + 2Fyz + 2Gx + 2Hy + 2Iz + J]. *)
Definition quadric_value (A B C D E F' G H' I J x y z : F) : F :=
  A * (x * x) + B * (y * y) + C * (z * z)
  + two * D * (x * y) + two * E * (x * z) + two * F' * (y * z)
  + two * G * x + two * H' * y + two * I * z + J.

(** [v(0) + v(1) + v(2)], the sum of the quadratic coefficients. *)
Definition quadratic_sum (v : @vec F) : option F :=
  a <- coeff v 0 ;; b <- coeff v 1 ;; c <- coeff v 2 ;; Some (a + b + c).

Definition three : F := 1 + 1 + 1.

(** [p^T M p] at the homogeneous point [p = (x, y, z, 1)]. *)
Definition homogeneous_form (M : @matrix F) (x y z : F) : F :=
  let p := [x; y; z; 1] in
  dot p (map (fun r => dot r p) M).

(** [M * x], for a vector [x]. *)
Definition matvec (M : @matrix F) (x : @vec F) : vec :=
  map (fun r => dot r x) M.

(** [A + B], row by row. *)
Fixpoint madd (A B : @matrix F) : matrix :=
  match A, B with
  | r :: A', s :: B' => vadd r s :: madd A' B'
  | _, _ => []
  end.

(** The variants whose second [switch] case zeroes [v.segment<3>(3)]. *)
Definition cross_free (type : EllipsoidType) : bool :=
  match type with
  | Sphere | Aligned | AlignedXYEqual | AlignedXZEqual => true
  | Arbitrary | XYEqual | XZEqual => false
  end.
End Layout.

(** ** Doubles of integer value, and doubles that overflow *)

(** The double nearest to an integer; exact below [2^53]. *)
Definition of_Z (n : Z) : spec_float := binary_normalize prec emax n 0 false.

Definition double_point (p : Z * Z * Z) : spec_float * spec_float * spec_float :=
  let '(x, y, z) := p in (of_Z x, of_Z y, of_Z z).




(** ** Eigenpairs and their relabelling *)

Section Pairing.
Context {F : Type} `{Scalar F}.
Local Open Scope scalar_scope.

(** [M.col(j)]. *)
Definition column (j : nat) (M : @matrix F) : vec :=
  map (fun r => nth j r 0) M.

(** [M.diagonal()]. *)
Definition diagonal (M : @matrix F) : vec :=
  map (fun i => nth i (nth i M []) 0) (seq 0 (length M)).

(** Modelled from the spec: [eigenOrder::leastRotationAngle] is not among
    the sources. Its contract (section 4.2 of the specification) is to
    choose one of the re-orderings and sign flips of the three eigenpairs
    and to permute the eigenvalues consistently with the vectors it
    relabels. Here: output pair [i] is input pair [sigma i], for a
    permutation [sigma] of the three indices, its vector kept or negated.
    Which relabelling is chosen (the smallest rotation angle) is not
    modelled. *)
Definition relabels (p q : @vec F * @matrix F) : Prop :=
  exists sigma : list nat,
    Permutation sigma [0; 1; 2]%nat
    /\ forall i j : nat,
         nth_error sigma i = Some j ->
         nth_error (fst q) i = nth_error (fst p) j
         /\ (column i (snd q) = column j (snd p)
             \/ column i (snd q) = vopp (column j (snd p))).

Definition swap01 (A : Type) (l : list A) : list A :=
  match l with
  | a :: b :: t => b :: a :: t
  | _ => l
  end.
End Pairing.

(** Stand-in kernels whose reordering does reorder: the eigen solver
    returns the eigenpairs of a diagonal matrix in the order 1, 0, 2, and
    the reordering puts them back in the order 0, 1, 2, where the
    eigenvectors are the identity. Every solution is the constant vector
    of 1. *)
Definition scrambled_kernels : Kernels spec_float := {|
  bdcSvd_solve := fun M _ => repeat (SFone prec emax) (length M);
  EigenSolver := fun M =>
    (swap01 (@diagonal spec_float binary64 M),
     [ [S754_zero false; SFone prec emax; S754_zero false];
       [SFone prec emax; S754_zero false; S754_zero false];
       [S754_zero false; S754_zero false; SFone prec emax] ]);
  leastRotationAngle := fun p => (swap01 (fst p), map (@swap01 _) (snd p))
|}.

(** ** The known ellipsoid of the recovery property *)

Section Known.
Context {F : Type} `{Scalar F}.
Local Open Scope scalar_scope.

Definition dot3 (a b : F * F * F) : F :=
  let '(a0, a1, a2) := a in
  let '(b0, b1, b2) := b in
  a0 * b0 + a1 * b1 + a2 * b2.

Definition sub3 (a b : F * F * F) : F * F * F :=
  let '(a0, a1, a2) := a in
  let '(b0, b1, b2) := b in
  (a0 - b0, a1 - b1, a2 - b2).

Definition sq (a : F) : F := a * a.

(** The three axes of an ellipsoid. *)
Definition basis : Type := (F * F * F) * (F * F * F) * (F * F * F).

(** The axes are of length one and orthogonal to one another. *)
Definition orthonormal (B : basis) : Prop :=
  let '(b0, b1, b2) := B in
  dot3 b0 b0 = 1 /\ dot3 b1 b1 = 1 /\ dot3 b2 b2 = 1
  /\ dot3 b0 b1 = 0 /\ dot3 b0 b2 = 0 /\ dot3 b1 b2 = 0.

(** In the words of the specification: [p] is on the ellipsoid of center
    [c], radii [r] and axes [B] when its coordinates along the axes,
    counted from the center and divided by the radii, have squares of
    sum one. *)
Definition on_ellipsoid (c r : F * F * F) (B : basis) (p : F * F * F)
  : Prop :=
  let '(b0, b1, b2) := B in
  let '(r0, r1, r2) := r in
  sq (dot3 b0 (sub3 p c) / r0) + sq (dot3 b1 (sub3 p c) / r1)
  + sq (dot3 b2 (sub3 p c) / r2) = 1.

(** The matrix [S] of that ellipsoid, [(p - c)^T S (p - c) = 1]: the sum
    over the axes [b] of [b b^T / r^2]. Its eigenvalues are the inverse
    squared radii. *)
Definition shape (r : F * F * F) (B : basis) : @matrix F :=
  let '((b00, b01, b02), (b10, b11, b12), (b20, b21, b22)) := B in
  let '(r0, r1, r2) := r in
  let s00 := b00 * b00 / sq r0 + b10 * b10 / sq r1 + b20 * b20 / sq r2 in
  let s01 := b00 * b01 / sq r0 + b10 * b11 / sq r1 + b20 * b21 / sq r2 in
  let s02 := b00 * b02 / sq r0 + b10 * b12 / sq r1 + b20 * b22 / sq r2 in
  let s11 := b01 * b01 / sq r0 + b11 * b11 / sq r1 + b21 * b21 / sq r2 in
  let s12 := b01 * b02 / sq r0 + b11 * b12 / sq r1 + b21 * b22 / sq r2 in
  let s22 := b02 * b02 / sq r0 + b12 * b12 / sq r1 + b22 * b22 / sq r2 in
  [ [s00; s01; s02]; [s01; s11; s12]; [s02; s12; s22] ].

(** The quadratic form of a symmetric matrix given by its upper entries. *)
Definition quadratic_form (s00 s01 s02 s11 s12 s22 : F) (d : F * F * F)
  : F :=
  let '(x, y, z) := d in
  s00 * (x * x) + s11 * (y * y) + s22 * (z * z)
  + two * s01 * (x * y) + two * s02 * (x * z) + two * s12 * (y * z).

(** The factor that brings the quadric of [S] to the normalisation of the
    routine, [v(0) + v(1) + v(2) = -3]. *)
Definition scale_of (s00 s11 s22 : F) : F := - (three / (s00 + s11 + s22)).

(** The ten coefficients of [k ((p - c)^T S (p - c) - 1)], in the order
    of [v]. *)
Definition known_coefficients (k s00 s01 s02 s11 s12 s22 c0 c1 c2 : F)
  : @vec F :=
  [ k * s00; k * s11; k * s22; k * s01; k * s02; k * s12;
    k * - (s00 * c0 + s01 * c1 + s02 * c2);
    k * - (s01 * c0 + s11 * c1 + s12 * c2);
    k * - (s02 * c0 + s12 * c1 + s22 * c2);
    k * (quadratic_form s00 s01 s02 s11 s12 s22 (c0, c1, c2) - 1) ].

(** The reduced solution that the Arbitrary case of the second [switch]
    maps to these coefficients. *)
Definition known_solution (s00 s01 s02 s11 s12 s22 c0 c1 c2 : F)
  : @vec F :=
  let t := s00 + s11 + s22 in
  (s22 - s00) / t :: (s11 - s00) / t
  :: skipn 3 (known_coefficients (scale_of s00 s11 s22)
                s00 s01 s02 s11 s12 s22 c0 c1 c2).

(** [x] is a solution of the square system [M x = b]. *)
Definition solves (M : @matrix F) (b x : @vec F) : Prop :=
  length x = length M /\ matvec M x = b.

(** The square system of matrix [M] has one solution at most. *)
Definition determined (M : @matrix F) : Prop :=
  forall y z : vec,
    length y = length M -> length z = length M ->
    matvec M y = matvec M z -> y = z.
End Known.

(** ** Real numbers, and the real value of a double *)

Definition real : Scalar R := {|
  s_zero := 0%R;
  s_one := 1%R;
  s_add := Rplus;
  s_mul := Rmult;
  s_sub := Rminus;
  s_opp := Ropp;
  s_div := Rdiv;
  s_sqrt := sqrt
|}.

Definition real_point (p : Z * Z * Z) : R * R * R :=
  let '(x, y, z) := p in (IZR x, IZR y, IZR z).

(** The value of a finite double; NaN and the infinities have none. *)
Definition real_value (x : spec_float) : option R :=
  match x with
  | S754_zero _ => Some 0%R
  | S754_finite s m e =>
      let a := IZR (if s then Z.neg m else Z.pos m) in
      Some (if (0 <=? e)%Z then (a * IZR (2 ^ e))%R
            else (a / IZR (2 ^ (- e)))%R)
  | _ => None
  end.

(** A relative error of [1e-6] at most. *)
Definition within_tolerance (x : spec_float) (rho : R) : Prop :=
  exists v : R,
    real_value x = Some v /\ (Rabs (v - rho) <= Rabs rho / 1000000)%R.

(** Nine points of integer coordinates on the ellipsoid of center
    [(1, 2, 3)] whose half-axes are 5 along x, 10 along y and 15 along
    z. *)
Definition sampled : list (Z * Z * Z) :=
  [ (6, 2, 3); (-4, 2, 3); (1, 12, 3); (1, -8, 3); (1, 2, 18);
    (1, 2, -12); (4, 10, 3); (5, 2, 12); (1, 8, 15) ]%Z.

(** Two sets of axes: the coordinate axes, and the same turned by a
    quarter of a turn around z. *)
Definition upright : @basis R := ((1, 0, 0), (0, 1, 0), (0, 0, 1))%R.
Definition quarter_turn : @basis R := ((0, 1, 0), (-1, 0, 0), (0, 0, 1))%R.

(** Stand-in kernels that are exact on the systems of the fit of
    [sampled]: the solution of the nine normal equations, the solution
    [-(1, 2, 3)] of the center system, and the eigenpairs of a diagonal
    matrix, kept in the order of the diagonal. *)
Definition exact_kernels : Kernels R := {|
  bdcSvd_solve := fun M _ =>
    if length M =? 9
    then [ -32 / 49; -27 / 49; 0; 0; 0; 108 / 49; 54 / 49; 36 / 49;
           2376 / 49 ]%R
    else [ -1; -2; -3 ]%R;
  EigenSolver := fun M =>
    (@diagonal R real M, [ [1; 0; 0]; [0; 1; 0]; [0; 0; 1] ]%R);
  leastRotationAngle := fun p => p
|}.

(** * Proof tools *)

(** A column of the design matrix is a map over the points. *)
Ltac column data :=
  unfold rows, vsub, vadd, vscale, cwiseProduct, setOnes, col_x, col_y, col_z;
  induction data as [|[[? ?] ?] ? ?]; simpl in *; congruence.

(** A list of known length, entry by entry. *)
Ltac sized u Hu :=
  repeat (destruct u as [|? u]; simpl in Hu; try discriminate Hu).

(** The conditions that [field] leaves: denominators that are not zero. *)
Ltac nonzero := repeat split; assumption.

(** Evaluation that leaves the operations on real numbers alone. *)
Ltac reals :=
  cbv - [Rplus Rmult Rminus Ropp Rdiv Rinv IZR sqrt Rabs Rle Rlt].

(** * Properties *)

(** ** Runs *)

Example design_matrix_run :
  design_matrix Arbitrary [(1, 2, 3); (4, 5, 6)]%Z
  = Some [ [-13; -31]; [2; 2]; [4; 40]; [6; 48]; [12; 60];
           [2; 8]; [4; 10]; [6; 12]; [1; 1] ]%Z.
Proof. reflexivity. Qed.

Example back_substitute_run :
  back_substitute Aligned [10; 20; 3; 4; 5; 6]%Z
  = Some (map Some [29; -31; -1; 0; 0; 0; 3; 4; 5; 6]%Z).
Proof. reflexivity. Qed.

(** One entry of [u] too few: the segment is out of range. *)
Example back_substitute_short :
  back_substitute Aligned [10; 20; 3; 4; 5]%Z = None.
Proof. reflexivity. Qed.

Example translate_run :
  translate
    [ [1; 0; 0; 0]; [0; 1; 0; 0]; [0; 0; 1; 0]; [5; 6; 7; 1] ]%Z
    [ [10; 13; 14; 16]; [13; 11; 15; 17];
      [14; 15; 12; 18]; [16; 17; 18; 19] ]%Z
  = [ [10; 13; 14; 242]; [13; 11; 15; 253];
      [14; 15; 12; 262]; [242; 253; 262; 4889] ]%Z.
Proof. reflexivity. Qed.

(** No point at all, in binary64 and with the stand-in kernels. *)
Example fit_no_point :
  @fit_full spec_float binary64 binary64_kernels [] nullptr dest nullptr Sphere
  = Some
      ({| center := [SFone prec emax; SFone prec emax; SFone prec emax];
          radii := [S754_nan; S754_infinity false; S754_infinity false] |},
       {| coefficients := None;
          eval_out := Some [S754_finite true 7205759403792794 (-56);
                            S754_zero false; S754_zero false];
          evec_column_out := None |}).
Proof. vm_compute. reflexivity. Qed.

Example radius_special_values :
  radius (S754_zero false) = S754_infinity false
  /\ radius (S754_zero true) = S754_nan
  /\ radius (S754_infinity true) = S754_zero true
  /\ radius (S754_infinity false) = S754_zero false
  /\ radius S754_nan = S754_nan.
Proof. repeat split. Qed.

(** ** Facts that hold for every scalar type *)

Section Columns.
Context {F : Type} `{Scalar F}.
Local Open Scope scalar_scope.

Lemma transpose_cols (A : Type) (fs : list (A -> F)) (l : list A) :
  transpose (length l) (map (fun f => map f l) fs)
  = map (fun a => map (fun f => f a) fs) l.
Proof.
  unfold transpose. induction l as [|a l IH]; simpl.
  - reflexivity.
  - f_equal.
    + rewrite map_map. reflexivity.
    + rewrite <- seq_shift, map_map, <- IH.
      apply map_ext. intro j. rewrite !map_map. reflexivity.
Qed.

Lemma design_matrix_columns (type : EllipsoidType) (data : points) :
  design_matrix type data
  = Some (map (fun f => map f data) (design_layout type)).
Proof.
  destruct type; unfold design_matrix; simpl; f_equal;
    repeat (apply f_equal2; [column data|]); reflexivity.
Qed.

(** C4. For every point matrix, the design matrix of each variant is
    built, has 9, 8, 8, 4, 6, 5, 5 columns (Arbitrary, XYEqual, XZEqual,
    Sphere, Aligned, AlignedXYEqual, AlignedXZEqual), every column has one
    entry per point, and the row of a point is the variant's fixed
    combination of its squared and raw coordinates and a final one. *)
Theorem design_matrix_layout (type : EllipsoidType) (data : points) :
  exists D : matrix,
    design_matrix type data = Some D
    /\ length D = design_cols type
    /\ Forall (fun c => length c = rows data) D
    /\ transpose (rows data) D = map (design_row type) data.
Proof.
  exists (map (fun f => map f data) (design_layout type)).
  split; [apply design_matrix_columns|].
  split; [destruct type; reflexivity|].
  split.
  - apply Forall_forall. intros c Hc.
    apply in_map_iff in Hc. destruct Hc as [f [<- _]].
    apply length_map.
  - apply transpose_cols.
Qed.

(** The second [switch] reads inside of [u] and writes the ten entries,
    when [u] has one entry per column of the design matrix. *)
Lemma back_substitute_populated (type : EllipsoidType) (u : vec) :
  length u = design_cols type ->
  exists v : vec,
    back_substitute type u = Some (map Some v) /\ length v = 10.
Proof.
  intro Hu. destruct type; sized u Hu;
    (eexists (_ :: _ :: _ :: _ :: _ :: _ :: _ :: _ :: _ :: _ :: nil);
     split; [reflexivity | reflexivity]).
Qed.

Lemma populated_map_Some (A : Type) (l : list A) :
  populated (map Some l) = Some l.
Proof.
  induction l as [|a l IH]; simpl; [reflexivity|]. rewrite IH. reflexivity.
Qed.

(** C5. For every reduced solution, the back-substituted coefficients
    satisfy the constraints of the variant: A = B for XYEqual, A = C for
    XZEqual, A = B = C and no cross term for Sphere, no cross term for
    Aligned, AlignedXYEqual and AlignedXZEqual. *)
Theorem back_substitute_constraint (type : EllipsoidType) (u : vec) :
  length u = design_cols type ->
  exists v : vec,
    back_substitute type u = Some (map Some v)
    /\ length v = 10
    /\ variant_constraint type v.
Proof.
  intro Hu. destruct type; sized u Hu;
    (eexists (_ :: _ :: _ :: _ :: _ :: _ :: _ :: _ :: _ :: _ :: nil);
     split; [reflexivity | split; [reflexivity|]]);
    cbv [variant_constraint cross_terms_zero]; simpl; auto.
Qed.
End Columns.

Lemma back_substitute_constraint_witness :
  exists v : list Z,
    back_substitute XYEqual [5; 1; 2; 3; 4; 5; 6; 7]%Z = Some (map Some v)
    /\ length v = 10
    /\ variant_constraint XYEqual v.
Proof.
  apply (@back_substitute_constraint Z Z_scalar XYEqual
           [5; 1; 2; 3; 4; 5; 6; 7]%Z).
  reflexivity.
Defined.

(** ** The flow of the routine, for every scalar type and all kernels *)

Section Flow.
Context {F : Type} `{Scalar F} {K : Kernels F}.
Local Open Scope scalar_scope.

Lemma quadric_total (type : EllipsoidType) (data : points) :
  KernelShapes K ->
  exists v : vec, quadric type data = Some v /\ length v = 10.
Proof.
  intro HK. unfold quadric. rewrite design_matrix_columns. simpl.
  destruct (@back_substitute_populated F _ type
              (solve_normal (map (fun f => map f data) (design_layout type))
                 (d2 data))) as [v [Hv Hlen]].
  - unfold solve_normal, normal_matrix.
    rewrite (solve_size HK), !length_map. destruct type; reflexivity.
  - exists v. rewrite Hv. simpl. rewrite populated_map_Some. auto.
Qed.

Lemma centered_total (v : vec) :
  KernelShapes K ->
  length v = 10 ->
  exists (c : vec) (M : matrix),
    centered v = Some (c, M) /\ length c = 3 /\ length M = 3.
Proof.
  intros HK Hv. sized v Hv. unfold centered. simpl.
  match goal with
  | |- context [bdcSvd_solve ?A ?b] =>
      pose proof (solve_size HK A b) as Hc;
      destruct (bdcSvd_solve A b) as [|cx [|cy [|cz [|? ?]]]];
      try discriminate Hc
  end.
  simpl. eexists. eexists. split; [reflexivity|]. split; reflexivity.
Qed.

(** The three short overloads return the [Parameters] of the full one:
    the pointers only decide which destinations are written. *)
Lemma fit_overloads (data : points)
    (coefficients_p eval_p evec_column_p : pointer) (type : EllipsoidType) :
  option_map fst (fit_full data coefficients_p eval_p evec_column_p type)
  = option_map fst (fit data type)
  /\ option_map fst (fit_coefficients data coefficients_p type)
     = option_map fst (fit data type)
  /\ option_map fst (fit_eigen data eval_p evec_column_p type)
     = option_map fst (fit data type).
Proof.
  unfold fit, fit_coefficients, fit_eigen, fit_full.
  destruct (quadric type data) as [v|]; simpl; [|auto].
  destruct (centered v) as [[c M]|]; simpl; auto.
Qed.

(** C8. For every point matrix, of any number of rows, every choice of
    output pointers and every variant, the routine runs to its end and
    returns a complete [Parameters]: a center and radii of three entries
    each. No access is out of range and no entry is read before it is
    written; the kernels are total and respect Eigen's sizes. *)
Theorem fit_total (data : points) (coefficients_p eval_p evec_column_p : pointer)
    (type : EllipsoidType) :
  KernelShapes K ->
  exists (params : Parameters F) (outs : Outputs F),
    fit_full data coefficients_p eval_p evec_column_p type
    = Some (params, outs)
    /\ length (center params) = 3
    /\ length (radii params) = 3.
Proof.
  intro HK.
  destruct (quadric_total type data HK) as [v [Hq Hv]].
  destruct (centered_total v HK Hv) as [c [M [Hc [Hlc HlM]]]].
  unfold fit_full. rewrite Hq. simpl. rewrite Hc. simpl.
  eexists. eexists. split; [reflexivity|]. simpl. split; [exact Hlc|].
  unfold compute_radii, cwiseSqrt, cwiseInverse.
  rewrite !length_map, (order_size HK). apply (eigen_size HK). exact HlM.
Qed.

End Flow.

Lemma Z_kernels_shapes : KernelShapes Z_kernels.
Proof.
  split; simpl.
  - intros M _. apply repeat_length.
  - intros M HM. rewrite length_map. exact HM.
  - reflexivity.
Qed.

Lemma fit_total_witness :
  exists (params : Parameters Z) (outs : Outputs Z),
    @fit_full Z Z_scalar Z_kernels [(1, 2, 3); (4, 5, 6)]%Z
      dest nullptr dest Aligned
    = Some (params, outs)
    /\ length (center params) = 3
    /\ length (radii params) = 3.
Proof.
  apply (@fit_total Z Z_scalar Z_kernels [(1, 2, 3); (4, 5, 6)]%Z
           dest nullptr dest Aligned).
  exact Z_kernels_shapes.
Defined.

(** ** Algebraic identities, in exact arithmetic *)

Section Exact.
Context {F : Type} `{Scalar F} {K : Kernels F}.
Hypothesis Fring : ring_theory 0%F 1%F s_add s_mul s_sub s_opp eq.
Add Ring Fr : Fring.
Local Open Scope scalar_scope.

(** C3, in exact arithmetic. For every variant and every reduced
    solution [u] of the size of the variant, the ten coefficients are all
    written and, under the laws of a commutative ring, the three quadratic
    coefficients sum to -3. *)
Theorem back_substitute_normalised (type : EllipsoidType) (u : vec) :
  length u = design_cols type ->
  exists v : vec,
    back_substitute type u = Some (map Some v)
    /\ length v = 10
    /\ quadratic_sum v = Some (- three).
Proof.
  intro Hu. destruct type; sized u Hu;
    (eexists (_ :: _ :: _ :: _ :: _ :: _ :: _ :: _ :: _ :: _ :: nil);
     split; [reflexivity | split; [reflexivity|]]);
    cbv [quadratic_sum coeff nth_error bind setConstant setZero repeat];
    f_equal; unfold three, two; ring.
Qed.


(** The congruence by a translation matrix keeps the upper-left block. *)
Lemma translate_block
    (a00 a01 a02 a03 a10 a11 a12 a13 a20 a21 a22 a23 a30 a31 a32 a33 : F)
    (cx cy cz : F) :
  block33
    (translate
       [ [1; 0; 0; 0]; [0; 1; 0; 0]; [0; 0; 1; 0]; [cx; cy; cz; 1] ]
       [ [a00; a01; a02; a03]; [a10; a11; a12; a13];
         [a20; a21; a22; a23]; [a30; a31; a32; a33] ])
  = [ [a00; a01; a02]; [a10; a11; a12]; [a20; a21; a22] ].
Proof.
  unfold translate, mmul, block33. simpl.
  repeat (apply f_equal2; [|try reflexivity]); ring.
Qed.

Lemma assemble_shape (v : vec) (A : matrix) :
  assemble v = Some A ->
  exists v0 v1 v2 v3 v4 v5 v6 v7 v8 v9 : F,
    A = [ [v0; v3; v4; v6]; [v3; v1; v5; v7];
          [v4; v5; v2; v8]; [v6; v7; v8; v9] ].
Proof.
  unfold assemble. intro HA.
  repeat match type of HA with
         | bind ?m _ = Some _ => destruct m; simpl in HA; [|discriminate HA]
         end.
  injection HA as <-. repeat eexists.
Qed.

Lemma translation_shape (c : vec) (T : matrix) :
  translation c = Some T ->
  exists cx cy cz : F,
    T = [ [1; 0; 0; 0]; [0; 1; 0; 0]; [0; 0; 1; 0]; [cx; cy; cz; 1] ].
Proof.
  unfold translation. intro HT.
  repeat match type of HT with
         | bind ?m _ = Some _ => destruct m; simpl in HT; [|discriminate HT]
         end.
  injection HT as <-. repeat eexists.
Qed.

(** The normal equations do not depend on the order of the points: every
    entry of [D^T D] and of [D^T d2] is a sum over the points. *)
Lemma dot_map_perm (A : Type) (f g : A -> F) (l l' : list A) :
  Permutation l l' ->
  dot (map f l) (map g l) = dot (map f l') (map g l').
Proof.
  induction 1 as [|a l l' _ IH|a b l|l l' l'' _ IH1 _ IH2]; simpl.
  - reflexivity.
  - rewrite IH. reflexivity.
  - ring.
  - rewrite IH1. exact IH2.
Qed.

Lemma d2_column (data : points) :
  d2 data = map (fun '(x, y, z) => x * x + y * y + z * z) data.
Proof. unfold d2. column data. Qed.

Lemma normal_equations_perm (type : EllipsoidType) (data data' : points)
    (D D' : matrix) :
  Permutation data data' ->
  design_matrix type data = Some D ->
  design_matrix type data' = Some D' ->
  normal_matrix D = normal_matrix D'
  /\ normal_rhs D (d2 data) = normal_rhs D' (d2 data').
Proof.
  intros Hp HD HD'. rewrite design_matrix_columns in HD, HD'.
  injection HD as <-. injection HD' as <-.
  unfold normal_matrix, normal_rhs. rewrite !map_map, !d2_column. split.
  - apply map_ext. intro f. rewrite !map_map. apply map_ext. intro g.
    apply dot_map_perm. exact Hp.
  - apply map_ext. intro f. apply dot_map_perm. exact Hp.
Qed.

(** Hence, in exact arithmetic, neither does the result of a call. *)
Lemma fit_full_perm (data data' : points)
    (coefficients_p eval_p evec_column_p : pointer) (type : EllipsoidType) :
  Permutation data data' ->
  fit_full data coefficients_p eval_p evec_column_p type
  = fit_full data' coefficients_p eval_p evec_column_p type.
Proof.
  intro Hp. unfold fit_full, quadric.
  destruct (@normal_equations_perm type data data' _ _ Hp
              (design_matrix_columns type data)
              (design_matrix_columns type data')) as [HM Hb].
  rewrite !design_matrix_columns. simpl. unfold solve_normal.
  rewrite HM, Hb. reflexivity.
Qed.
End Exact.

Lemma back_substitute_normalised_witness :
  exists v : list Z,
    back_substitute Arbitrary [10; 20; 3; 4; 5; 6; 7; 8; 9]%Z
    = Some (map Some v)
    /\ length v = 10
    /\ quadratic_sum v = Some (-3)%Z.
Proof.
  apply (@back_substitute_normalised Z Z_scalar InitialRing.Zth Arbitrary
           [10; 20; 3; 4; 5; 6; 7; 8; 9]%Z).
  reflexivity.
Defined.



(** ** The radii in binary64 *)

Section Binary64.
Local Open Scope Z_scope.

Lemma digits2_pos_bounds (m : positive) :
  2 ^ (Zpos (digits2_pos m) - 1) <= Zpos m < 2 ^ Zpos (digits2_pos m).
Proof.
  induction m as [m IH|m IH|]; simpl digits2_pos.
  - rewrite Pos2Z.inj_succ, Z.pow_succ_r by lia.
    replace (Z.succ (Zpos (digits2_pos m)) - 1) with (Z.succ (Zpos (digits2_pos m) - 1)) by lia.
    rewrite Z.pow_succ_r by lia. lia.
  - rewrite Pos2Z.inj_succ, Z.pow_succ_r by lia.
    replace (Z.succ (Zpos (digits2_pos m)) - 1) with (Z.succ (Zpos (digits2_pos m) - 1)) by lia.
    rewrite Z.pow_succ_r by lia. lia.
  - simpl. lia.
Qed.

Lemma Zdigits2_bounds (m : Z) :
  0 < m -> 0 < Zdigits2 m /\ 2 ^ (Zdigits2 m - 1) <= m < 2 ^ Zdigits2 m.
Proof.
  destruct m as [|p|p]; try lia. intros _. simpl Zdigits2.
  split; [lia | apply digits2_pos_bounds].
Qed.

Lemma shr_1_m (mrs : shr_record) :
  0 <= shr_m mrs -> shr_m (shr_1 mrs) = shr_m mrs / 2.
Proof.
  destruct mrs as [m r s]. simpl. intro Hm.
  destruct m as [|[p|p|]|p]; cbn [shr_m]; try lia; try reflexivity.
  - apply Z.div_unique with (r := 1); lia.
  - apply Z.div_unique with (r := 0); lia.
Qed.

Lemma iter_shr_1_m (p : positive) (mrs : shr_record) :
  0 <= shr_m mrs ->
  shr_m (iter_pos shr_1 p mrs) = shr_m mrs / 2 ^ Zpos p.
Proof.
  revert mrs. induction p as [p IH|p IH|]; intros mrs Hm; simpl iter_pos.
  - assert (H1 : 0 <= shr_m (shr_1 mrs)).
    { rewrite shr_1_m by exact Hm. apply Z.div_pos; lia. }
    assert (H2 : 0 <= shr_m (iter_pos shr_1 p (shr_1 mrs))).
    { rewrite IH by exact H1. apply Z.div_pos; lia. }
    rewrite IH, IH, shr_1_m by assumption.
    rewrite !Z.div_div by lia. f_equal.
    replace (Z.pos p~1) with (1 + (Z.pos p + Z.pos p)) by lia.
    rewrite !Z.pow_add_r by lia. ring.
  - assert (H2 : 0 <= shr_m (iter_pos shr_1 p mrs)).
    { rewrite IH by exact Hm. apply Z.div_pos; lia. }
    rewrite IH, IH by assumption.
    rewrite !Z.div_div by lia. f_equal.
    replace (Z.pos p~0) with (Z.pos p + Z.pos p) by lia.
    rewrite !Z.pow_add_r by lia. ring.
  - rewrite shr_1_m by exact Hm. reflexivity.
Qed.

Lemma shr_fexp_positive (m e : Z) (l : location) :
  0 < m -> emin prec emax < Zdigits2 m + e ->
  0 < shr_m (fst (shr_fexp prec emax m e l))
  /\ emin prec emax
     < Zdigits2 (shr_m (fst (shr_fexp prec emax m e l)))
       + snd (shr_fexp prec emax m e l).
Proof.
  intros Hm He. unfold shr_fexp, shr.
  assert (Hrec : shr_m (shr_record_of_loc m l) = m).
  { destruct l as [|[]]; reflexivity. }
  destruct (@Zdigits2_bounds _ Hm) as [Hd [Hlo Hhi]].
  destruct (fexp prec emax (Zdigits2 m + e) - e) as [|n|n] eqn:Hn;
    cbn [fst snd]; rewrite ?Hrec; try (split; assumption).
  rewrite iter_shr_1_m by lia. rewrite Hrec.
  assert (Hle : Zpos n <= Zdigits2 m - 1).
  { unfold fexp, emin, prec, emax in *. lia. }
  assert (Hq : 2 ^ (Zdigits2 m - 1 - Zpos n) <= m / 2 ^ Zpos n).
  { apply Z.div_le_lower_bound; [lia|].
    rewrite <- Z.pow_add_r by lia.
    replace (Z.pos n + (Zdigits2 m - 1 - Z.pos n)) with (Zdigits2 m - 1) by lia.
    exact Hlo. }
  assert (Hpos : 0 < m / 2 ^ Zpos n).
  { assert (0 < 2 ^ (Zdigits2 m - 1 - Zpos n)) by (apply Z.pow_pos_nonneg; lia).
    lia. }
  split; [exact Hpos|].
  destruct (@Zdigits2_bounds _ Hpos) as [Hd' _].
  unfold fexp, emin, prec, emax in *. lia.
Qed.

Lemma round_nearest_even_ge (m : Z) (l : location) :
  m <= round_nearest_even m l.
Proof.
  destruct l as [|[]]; simpl; try destruct (Z.even m); lia.
Qed.

Lemma pow2_lt_digits (k m : Z) :
  0 <= k -> 2 ^ k <= m -> k < Zdigits2 m.
Proof.
  intros Hk Hm.
  assert (H0 : 0 < 2 ^ k) by (apply Z.pow_pos_nonneg; lia).
  destruct (@Zdigits2_bounds m) as [Hd [_ Hhi]]; [lia|].
  apply (Z.pow_lt_mono_r_iff 2); lia.
Qed.

Lemma Zdigits2_le (a b : Z) : 0 < a -> a <= b -> Zdigits2 a <= Zdigits2 b.
Proof.
  intros Ha Hab.
  destruct (@Zdigits2_bounds _ Ha) as [Hd [Hlo _]].
  assert (Zdigits2 a - 1 < Zdigits2 b); [|lia].
  apply pow2_lt_digits; lia.
Qed.

Lemma binary_round_aux_signed (sx : bool) (m e : Z) (l : location) :
  signed_as sx (binary_round_aux prec emax sx m e l).
Proof.
  unfold binary_round_aux.
  destruct (shr_fexp prec emax m e l) as [mrs' e'].
  destruct (shr_fexp prec emax _ e' loc_Exact) as [mrs'' e''].
  destruct (shr_m mrs''); [exact eq_refl | | exact I].
  destruct (e'' <=? emax - prec); exact eq_refl.
Qed.

Lemma binary_round_aux_not_zero (sx : bool) (m e : Z) (l : location) :
  0 < m -> emin prec emax < Zdigits2 m + e ->
  forall s : bool, binary_round_aux prec emax sx m e l <> S754_zero s.
Proof.
  intros Hm He s. unfold binary_round_aux.
  destruct (@shr_fexp_positive m e l Hm He) as [H1 H2].
  destruct (shr_fexp prec emax m e l) as [mrs' e']. cbn [fst snd] in H1, H2.
  pose proof (round_nearest_even_ge (shr_m mrs') (loc_of_shr_record mrs')) as Hr.
  assert (Hm' : 0 < round_nearest_even (shr_m mrs') (loc_of_shr_record mrs'))
    by lia.
  assert (He' : emin prec emax
                < Zdigits2 (round_nearest_even (shr_m mrs')
                              (loc_of_shr_record mrs')) + e').
  { pose proof (@Zdigits2_le _ _ H1 Hr). lia. }
  destruct (@shr_fexp_positive _ e' loc_Exact Hm' He') as [H3 _].
  destruct (shr_fexp prec emax _ e' loc_Exact) as [mrs'' e''].
  cbn [fst] in H3.
  destruct (shr_m mrs''); try lia.
  destruct (e'' <=? emax - prec); discriminate.
Qed.

Lemma bounded_digits (m : positive) (e : Z) :
  bounded prec emax m e = true ->
  Zpos (digits2_pos m) <= 53
  /\ -1074 <= e <= 971.
Proof.
  unfold bounded, canonical_mantissa, fexp, emin, prec, emax.
  intro Hb. apply andb_true_iff in Hb. destruct Hb as [Hc He].
  apply Z.eqb_eq in Hc. apply Z.leb_le in He. lia.
Qed.

Lemma div_core_one (m : positive) (e : Z) (mz ez : Z) (lz : location) :
  bounded prec emax m e = true ->
  SFdiv_core_binary prec emax (Zpos 4503599627370496) (-52) (Zpos m) e
  = (mz, ez, lz) ->
  0 < mz /\ emin prec emax < Zdigits2 mz + ez.
Proof.
  intros Hb Hcore. destruct (@bounded_digits m e Hb) as [Hd He].
  pose proof (digits2_pos_bounds m) as [Hlo Hhi].
  unfold SFdiv_core_binary in Hcore.
  change (Zdigits2 (Z.pos 4503599627370496)) with 53 in Hcore.
  cbn [Zdigits2] in Hcore.
  set (d := Zpos (digits2_pos m)) in *.
  assert (Hd1 : 1 <= d) by (unfold d; lia).
  set (e' := Z.min (fexp prec emax (53 + -52 - (d + e))) (-52 - e)) in *.
  assert (He' : e' = Z.max (-52 - d - e) (-1074)).
  { unfold e', fexp, emin, prec, emax. lia. }
  destruct (-52 - e - e') as [|s|s] eqn:Hs; try lia.
  rewrite Z.shiftl_mul_pow2 in Hcore by lia.
  destruct (Z.div_eucl _ (Z.pos m)) as [q r] eqn:Hdiv.
  injection Hcore as <- <- _.
  assert (Hq : q = Z.pos 4503599627370496 * 2 ^ Z.pos s / Z.pos m).
  { unfold Z.div. rewrite Hdiv. reflexivity. }
  assert (Hk : 0 <= 52 + Zpos s - d) by lia.
  assert (Hge : 2 ^ (52 + Zpos s - d) <= q).
  { assert (E : 4503599627370496 * 2 ^ Z.pos s
                = 2 ^ d * 2 ^ (52 + Z.pos s - d)).
    { change 4503599627370496 with (2 ^ 52).
      rewrite <- !Z.pow_add_r by lia. f_equal. lia. }
    rewrite Hq, E. apply Z.div_le_lower_bound; [lia|].
    apply Z.mul_le_mono_nonneg_r; [apply Z.pow_nonneg; lia | lia]. }
  assert (H0 : 0 < 2 ^ (52 + Zpos s - d)) by (apply Z.pow_pos_nonneg; lia).
  split; [lia|].
  pose proof (@pow2_lt_digits _ _ Hk Hge).
  unfold emin, prec, emax. lia.
Qed.

Lemma radius_below_zero (m : positive) (e : Z) :
  bounded prec emax m e = true ->
  radius (S754_finite true m e) = S754_nan.
Proof.
  intro Hb. unfold radius.
  change (SFone prec emax) with (S754_finite false 4503599627370496 (-52)).
  unfold SFdiv.
  destruct (SFdiv_core_binary prec emax (Z.pos 4503599627370496) (-52)
              (Z.pos m) e) as [[mz ez] lz] eqn:Hcore.
  destruct (@div_core_one m e mz ez lz Hb Hcore) as [Hm He].
  pose proof (binary_round_aux_signed (xorb false true) mz ez lz) as Hs.
  pose proof (@binary_round_aux_not_zero (xorb false true) mz ez lz Hm He) as Hz.
  destruct (binary_round_aux prec emax (xorb false true) mz ez lz)
    as [s|s| |s m' e'']; simpl in Hs; try subst s; try reflexivity.
  exfalso. apply (Hz true). reflexivity.
Qed.



(** In binary64 the square root of the reciprocal is not the reciprocal
    of the square root: at 2 they differ in the last place. *)
Example radius_two :
  let two64 := SFadd prec emax (SFone prec emax) (SFone prec emax) in
  radius two64 = S754_finite false 6369051672525773 (-53)
  /\ SFdiv prec emax (SFone prec emax) (SFsqrt prec emax two64)
     = S754_finite false 6369051672525772 (-53).
Proof. split; vm_compute; reflexivity. Qed.


End Binary64.

(** * Further properties of the routine *)

(** ** The two switches, for every scalar type *)

Section Switches.
Context {F : Type} `{Scalar F}.
Local Open Scope scalar_scope.

(** The second [switch] reads [u] up to the number of columns that the
    first one gave the design matrix, and no further: it stays in range
    exactly when [u] has that many entries. *)
Theorem back_substitute_in_range (type : EllipsoidType) (u : vec) :
  back_substitute type u <> None <-> design_cols type <= length u.
Proof.
  split.
  - intro Hb.
    destruct type; simpl design_cols;
      do 9 (try (destruct u as [|? u];
                 [exfalso; apply Hb; reflexivity|]));
      simpl; lia.
  - intro Hu.
    destruct type; simpl in Hu;
      do 9 (try (destruct u as [|? u]; simpl in Hu; [lia|]));
      discriminate.
Qed.

(** Entries of [u] beyond the columns of the design matrix are not read. *)
Theorem back_substitute_prefix (type : EllipsoidType) (u extra : vec) :
  length u = design_cols type ->
  back_substitute type (u ++ extra) = back_substitute type u.
Proof.
  intro Hu. destruct type; sized u Hu; reflexivity.
Qed.
End Switches.

Lemma back_substitute_prefix_witness :
  back_substitute Sphere ([6; 7; 8; 9] ++ [10; 11])%Z
  = back_substitute Sphere [6; 7; 8; 9]%Z.
Proof.
  apply (@back_substitute_prefix Z Z_scalar Sphere [6; 7; 8; 9]%Z
           [10; 11]%Z).
  reflexivity.
Defined.

(** ** Further identities, in exact arithmetic *)

Section Quadric.
Context {F : Type} `{Scalar F} {K : Kernels F}.
Hypothesis Fring : ring_theory 0%F 1%F s_add s_mul s_sub s_opp eq.
Add Ring Fq : Fring.
Local Open Scope scalar_scope.

(** The two switches agree, variant by variant: at a point [(x, y, z)],
    the quadric of the back-substituted coefficients is the residual of
    the least-squares system, the row of the point times [u] minus
    [x^2 + y^2 + z^2]. *)
Theorem switches_agree (type : EllipsoidType) (u : vec) (x y z : F) :
  length u = design_cols type ->
  exists a b c d e f g h i j : F,
    back_substitute type u = Some (map Some [a; b; c; d; e; f; g; h; i; j])
    /\ quadric_value a b c d e f g h i j x y z
       = dot (design_row type (x, y, z)) u - (x * x + y * y + z * z).
Proof.
  intro Hu. destruct type; sized u Hu;
    do 10 eexists; (split; [reflexivity|]);
    unfold quadric_value, two; simpl; unfold two; ring.
Qed.

(** What the second [switch] has written, when all of it is written. *)
Lemma back_substitute_written (type : EllipsoidType) (u v : vec) (vs : slots F) :
  back_substitute type u = Some vs ->
  populated vs = Some v ->
  length v = 10
  /\ quadratic_sum v = Some (- three)
  /\ variant_constraint type v.
Proof.
  intros Hb Hp.
  destruct type;
    do 9 (try (destruct u as [|? u]; simpl in Hb; try discriminate Hb));
    injection Hb as <-; simpl in Hp; injection Hp as <-;
    (split; [reflexivity|]);
    (split; [cbv [quadratic_sum coeff nth_error bind]; f_equal;
             unfold three, two; ring
            |cbv [variant_constraint cross_terms_zero]; simpl; auto]).
Qed.

(** A caller that asks for the coefficients receives ten of them; their
    first three sum to -3 and they satisfy the constraints of the variant. *)
Theorem fit_coefficients_output (data : points) (eval_p evec_column_p : pointer)
    (type : EllipsoidType) (params : Parameters F) (outs : Outputs F) :
  fit_full data dest eval_p evec_column_p type = Some (params, outs) ->
  exists v : vec,
    coefficients outs = Some v
    /\ length v = 10
    /\ quadratic_sum v = Some (- three)
    /\ variant_constraint type v.
Proof.
  unfold fit_full, quadric. intro Hfit.
  destruct (design_matrix type data) as [D|]; [|discriminate Hfit].
  simpl in Hfit.
  destruct (back_substitute type (solve_normal D (d2 data))) as [vs|] eqn:Hb;
    [|discriminate Hfit].
  simpl in Hfit.
  destruct (populated vs) as [v|] eqn:Hp; [|discriminate Hfit].
  simpl in Hfit.
  destruct (centered v) as [[c M]|]; [|discriminate Hfit].
  simpl in Hfit. injection Hfit as <- <-. simpl.
  exists v. split; [reflexivity|].
  exact (back_substitute_written type _ Hb Hp).
Qed.

(** The congruence re-centers the quadric and keeps its shape: [R] at a
    point is [A] at the point moved by the center, and [R(3,3)] is the
    quadric of [A] at the center. *)
Theorem translate_recenters
    (a00 a01 a02 a03 a10 a11 a12 a13 a20 a21 a22 a23 a30 a31 a32 a33 : F)
    (cx cy cz : F) :
  let A := [ [a00; a01; a02; a03]; [a10; a11; a12; a13];
             [a20; a21; a22; a23]; [a30; a31; a32; a33] ] in
  exists T : matrix,
    translation [cx; cy; cz] = Some T
    /\ (forall x y z : F,
          homogeneous_form (translate T A) x y z
          = homogeneous_form A (x + cx) (y + cy) (z + cz))
    /\ entry (translate T A) 3 3 = Some (homogeneous_form A cx cy cz).
Proof.
  intro A. eexists. split; [reflexivity|]. split.
  - intros x y z. unfold homogeneous_form, translate, mmul. simpl. ring.
  - unfold homogeneous_form, translate, mmul, entry. simpl. f_equal. ring.
Qed.

(** When the solution returned for the center does solve its system, the
    translation removes the linear terms of the quadric: the last column
    and the last row of [R] vanish outside of [R(3,3)]. *)
Theorem center_removes_linear_terms (a b c d e f g h i j s0 s1 s2 : F) :
  let v := [a; b; c; d; e; f; g; h; i; j] in
  let A33 := [ [a; d; e]; [d; b; f]; [e; f; c] ] in
  bdcSvd_solve A33 [g; h; i] = [s0; s1; s2] ->
  matvec A33 [s0; s1; s2] = [g; h; i] ->
  exists (A T : matrix),
    assemble v = Some A
    /\ find_center A v = Some [- s0; - s1; - s2]
    /\ translation [- s0; - s1; - s2] = Some T
    /\ map (fun r => nth_error r 3) (translate T A)
       = [Some 0; Some 0; Some 0; entry (translate T A) 3 3]
    /\ nth_error (translate T A) 3
       = Some [0; 0; 0; homogeneous_form A (- s0) (- s1) (- s2)].
Proof.
  intros v A33 Hsol Hsys. subst v A33.
  unfold matvec in Hsys. simpl in Hsys. injection Hsys as Hg Hh Hi.
  subst g h i.
  eexists. eexists. split; [reflexivity|]. split.
  { unfold find_center, block33. simpl. rewrite Hsol. reflexivity. }
  split; [reflexivity|].
  unfold translate, mmul, entry, homogeneous_form. simpl. split.
  - repeat (apply (f_equal2 (@cons (option F)));
            [try reflexivity; f_equal; ring|]).
    reflexivity.
  - f_equal. repeat (apply (f_equal2 (@cons F)); [ring|]). reflexivity.
Qed.

(** The matrix handed to the eigen solver is symmetric, as is [R]. *)
Theorem eigen_input_symmetric (v c : vec) (M : matrix) :
  centered v = Some (c, M) ->
  exists A T : matrix,
    assemble v = Some A
    /\ translation c = Some T
    /\ transpose 4 (translate T A) = translate T A
    /\ transpose 3 M = M.
Proof.
  unfold centered. intro Hc.
  destruct (assemble v) as [A|] eqn:HA; [|discriminate Hc]. simpl in Hc.
  destruct (find_center A v) as [c'|]; [|discriminate Hc]. simpl in Hc.
  destruct (translation c') as [T|] eqn:HT; [|discriminate Hc]. simpl in Hc.
  destruct (assemble_shape v HA)
    as [v0 [v1 [v2 [v3 [v4 [v5 [v6 [v7 [v8 [v9 ->]]]]]]]]]].
  destruct (translation_shape c' HT) as [cx [cy [cz ->]]].
  unfold eigen_input in Hc. rewrite translate_block in Hc by exact Fring.
  match type of Hc with
  | context [entry ?R 3 3] =>
      destruct (entry R 3 3) as [r33|]; [|discriminate Hc]
  end.
  simpl in Hc. injection Hc as <- <-.
  eexists. eexists. split; [reflexivity|]. split; [exact HT|].
  split; [|reflexivity].
  unfold translate, mmul, transpose. simpl.
  repeat (apply (f_equal2 (@cons (list F)));
          [repeat (apply (f_equal2 (@cons F)); [ring|]); reflexivity|]).
  reflexivity.
Qed.

(** For the sphere and the three aligned variants the matrix handed to the
    eigen solver is diagonal: its diagonal is [v(0)], [v(1)], [v(2)] divided
    by [-R(3,3)], and every off-diagonal entry is [0 / -R(3,3)], for the
    [R = T * A * T^T] of the call. *)
Theorem cross_free_diagonal (type : EllipsoidType) (data : points)
    (v c : vec) (M : matrix) :
  cross_free type = true ->
  quadric type data = Some v ->
  centered v = Some (c, M) ->
  exists (A T : matrix) (a b c2 r33 : F),
    coeff v 0 = Some a /\ coeff v 1 = Some b /\ coeff v 2 = Some c2
    /\ assemble v = Some A
    /\ translation c = Some T
    /\ entry (translate T A) 3 3 = Some r33
    /\ M = [ [a / - r33; 0 / - r33; 0 / - r33];
             [0 / - r33; b / - r33; 0 / - r33];
             [0 / - r33; 0 / - r33; c2 / - r33] ].
Proof.
  intros Hfree Hq Hc. unfold quadric in Hq.
  destruct (design_matrix type data) as [D|]; [|discriminate Hq].
  simpl in Hq.
  destruct (back_substitute type (solve_normal D (d2 data))) as [vs|] eqn:Hb;
    [|discriminate Hq].
  simpl in Hq.
  destruct (back_substitute_written type _ Hb Hq) as [Hlen [_ Hcon]].
  assert (Hz : cross_terms_zero v).
  { destruct type; try discriminate Hfree; simpl in Hcon; tauto. }
  clear Hb Hq Hcon. sized v Hlen.
  unfold cross_terms_zero in Hz. simpl in Hz. injection Hz as -> -> ->.
  unfold centered in Hc. simpl in Hc.
  match type of Hc with
  | context [translation ?c'] =>
      destruct (translation c') as [T|] eqn:HT; [|discriminate Hc];
      destruct (translation_shape c' HT) as [cx [cy [cz HTs]]]
  end.
  cbn [bind] in Hc. unfold eigen_input in Hc.
  destruct (entry (translate T _) 3 3) as [r33|] eqn:Hr; [|discriminate Hc].
  cbn [bind] in Hc. injection Hc as <- <-.
  eexists. exists T. do 3 eexists. exists r33.
  do 3 (split; [reflexivity|]). split; [reflexivity|].
  split; [exact HT|]. split; [exact Hr|].
  subst T. rewrite translate_block by exact Fring. reflexivity.
Qed.

(** The steps from the coefficients to the eigenproblem, one by one. *)
Lemma centered_steps (v c : vec) (A T : matrix) (r33 : F) :
  assemble v = Some A ->
  find_center A v = Some c ->
  translation c = Some T ->
  entry (translate T A) 3 3 = Some r33 ->
  centered v = Some (c, mdiv (block33 (translate T A)) (- r33)).
Proof.
  intros HA Hc HT Hr. unfold centered, eigen_input.
  rewrite HA. cbn [bind]. rewrite Hc. cbn [bind]. rewrite HT. cbn [bind].
  rewrite Hr. reflexivity.
Qed.

(** The sphere: when the solution returned for the center does solve its
    system, the center is the first three entries of [u] and the matrix
    handed to the eigen solver is minus the identity divided by minus
    [u(3) + u(0)^2 + u(1)^2 + u(2)^2], the squared radius. *)
Theorem sphere_center (u0 u1 u2 u3 s0 s1 s2 : F) :
  let minus_identity := [ [- (1); 0; 0]; [0; - (1); 0]; [0; 0; - (1)] ] in
  bdcSvd_solve minus_identity [u0; u1; u2] = [s0; s1; s2] ->
  matvec minus_identity [s0; s1; s2] = [u0; u1; u2] ->
  exists (vs : slots F) (v : vec),
    back_substitute Sphere [u0; u1; u2; u3] = Some vs
    /\ populated vs = Some v
    /\ centered v
       = Some ([u0; u1; u2],
               mdiv minus_identity
                 (- (u3 + (u0 * u0 + u1 * u1 + u2 * u2)))).
Proof.
  intros minus_identity Hsol Hsys. subst minus_identity.
  unfold matvec in Hsys. simpl in Hsys. injection Hsys as H0 H1 H2.
  assert (E0 : - s0 = u0) by (rewrite <- H0; ring).
  assert (E1 : - s1 = u1) by (rewrite <- H1; ring).
  assert (E2 : - s2 = u2) by (rewrite <- H2; ring).
  clear H0 H1 H2.
  eexists. eexists. split; [reflexivity|]. split; [reflexivity|].
  erewrite centered_steps; cycle 1.
  - reflexivity.
  - unfold find_center, block33. simpl. rewrite Hsol. reflexivity.
  - reflexivity.
  - reflexivity.
  - rewrite translate_block by exact Fring.
    change (vopp [s0; s1; s2]) with [- s0; - s1; - s2].
    rewrite !E0, !E1, !E2. do 4 f_equal.
    unfold transpose. simpl. ring.
Qed.

Lemma dot_comm (a b : vec) : dot a b = dot b a.
Proof.
  revert b. induction a as [|x a IH]; intros [|y b]; simpl; try reflexivity.
  rewrite IH. ring.
Qed.

(** Whatever the number of points, the system handed to the solver is
    square, of the size of the variant, and its matrix is symmetric. *)
Theorem normal_system_square (type : EllipsoidType) (data : points) :
  exists D : matrix,
    design_matrix type data = Some D
    /\ length (normal_matrix D) = design_cols type
    /\ Forall (fun r => length r = design_cols type) (normal_matrix D)
    /\ length (normal_rhs D (d2 data)) = design_cols type
    /\ transpose (design_cols type) (normal_matrix D) = normal_matrix D.
Proof.
  eexists. split; [apply design_matrix_columns|].
  unfold normal_matrix, normal_rhs.
  split; [rewrite !length_map; destruct type; reflexivity|].
  split.
  { apply Forall_forall. intros r Hr. apply in_map_iff in Hr.
    destruct Hr as [ci [<- _]]. rewrite !length_map.
    destruct type; reflexivity. }
  split; [rewrite !length_map; destruct type; reflexivity|].
  destruct type; simpl;
    repeat (apply (f_equal2 (@cons (list F)));
            [repeat (apply (f_equal2 (@cons F));
                     [reflexivity || apply dot_comm|]);
             reflexivity|]);
    reflexivity.
Qed.
End Quadric.

Lemma back_substitute_in_range_witness :
  back_substitute Sphere [6; 7; 8; 9]%Z <> None.
Proof.
  apply (proj2 (@back_substitute_in_range Z Z_scalar Sphere [6; 7; 8; 9]%Z)).
  simpl. lia.
Defined.

Lemma switches_agree_witness :
  exists a b c d e f g h i j : Z,
    back_substitute XYEqual [5; 1; 2; 3; 4; 5; 6; 7]%Z
    = Some (map Some [a; b; c; d; e; f; g; h; i; j])
    /\ quadric_value a b c d e f g h i j 1%Z 2%Z 3%Z = (58 - 14)%Z.
Proof.
  apply (@switches_agree Z Z_scalar InitialRing.Zth XYEqual
           [5; 1; 2; 3; 4; 5; 6; 7]%Z 1%Z 2%Z 3%Z).
  reflexivity.
Defined.

Lemma fit_coefficients_output_witness :
  exists v : list Z,
    Some [3; -3; -3; 2; 2; 2; 2; 2; 2; 2]%Z = Some v
    /\ length v = 10
    /\ quadratic_sum v = Some (-3)%Z
    /\ variant_constraint Arbitrary v.
Proof.
  apply (@fit_coefficients_output Z Z_scalar (stub_kernels 2%Z)
           InitialRing.Zth [(1, 2, 3); (4, 5, 6)]%Z nullptr nullptr Arbitrary
           {| center := [-2; -2; -2]%Z; radii := [0; 0; 0]%Z |}
           {| coefficients := Some [3; -3; -3; 2; 2; 2; 2; 2; 2; 2]%Z;
              eval_out := None; evec_column_out := None |}).
  reflexivity.
Defined.

Lemma translate_recenters_witness :
  exists T : list (list Z),
    translation [5; 6; 7]%Z = Some T
    /\ entry
         (translate T [ [10; 13; 14; 16]; [13; 11; 15; 17];
                        [14; 15; 12; 18]; [16; 17; 18; 19] ]%Z) 3 3
       = Some 4889%Z.
Proof.
  destruct (@translate_recenters Z Z_scalar InitialRing.Zth
              10 13 14 16 13 11 15 17 14 15 12 18 16 17 18 19 5 6 7)%Z
    as [T [HT [_ Hr]]].
  exists T. split; [exact HT | exact Hr].
Defined.

Lemma center_removes_linear_terms_witness :
  exists A T : list (list Z),
    assemble [-2; -3; -4; 1; 0; 0; -1; -2; -4; 7]%Z = Some A
    /\ nth_error (@translate Z Z_scalar T A) 3
       = Some [0; 0; 0; homogeneous_form A (-1) (-1) (-1)]%Z.
Proof.
  destruct (@center_removes_linear_terms Z Z_scalar (stub_kernels 1%Z)
              InitialRing.Zth (-2) (-3) (-4) 1 0 0 (-1) (-2) (-4) 7 1 1 1)%Z
    as [A [T [HA [_ [_ [_ Hrow]]]]]]; [reflexivity | reflexivity |].
  exists A, T. split; [exact HA | exact Hrow].
Defined.

Lemma eigen_input_symmetric_witness :
  transpose 3 [[-2; 1; 0]; [1; -3; 0]; [0; 0; -4]]%Z
  = [[-2; 1; 0]; [1; -3; 0]; [0; 0; -4]]%Z.
Proof.
  destruct (@eigen_input_symmetric Z Z_scalar Z_kernels InitialRing.Zth
              [-2; -3; -4; 1; 0; 0; 0; 0; 0; -1]%Z [0; 0; 0]%Z
              [[-2; 1; 0]; [1; -3; 0]; [0; 0; -4]]%Z eq_refl)
    as [A [T [_ [_ [_ HM]]]]].
  exact HM.
Defined.

Lemma cross_free_diagonal_witness :
  exists (A T : list (list Z)) (a b c2 r33 : Z),
    coeff [3; -3; -3; 0; 0; 0; 2; 2; 2; 2]%Z 0 = Some a
    /\ coeff [3; -3; -3; 0; 0; 0; 2; 2; 2; 2]%Z 1 = Some b
    /\ coeff [3; -3; -3; 0; 0; 0; 2; 2; 2; 2]%Z 2 = Some c2
    /\ assemble [3; -3; -3; 0; 0; 0; 2; 2; 2; 2]%Z = Some A
    /\ translation [-2; -2; -2]%Z = Some T
    /\ entry (translate T A) 3 3 = Some r33
    /\ [[0; 0; 0]; [0; -1; 0]; [0; 0; -1]]%Z
       = [ [a / - r33; 0 / - r33; 0 / - r33];
           [0 / - r33; b / - r33; 0 / - r33];
           [0 / - r33; 0 / - r33; c2 / - r33] ]%Z.
Proof.
  apply (@cross_free_diagonal Z Z_scalar (stub_kernels 2%Z) InitialRing.Zth
           Aligned [(1, 2, 3)]%Z [3; -3; -3; 0; 0; 0; 2; 2; 2; 2]%Z
           [-2; -2; -2]%Z [[0; 0; 0]; [0; -1; 0]; [0; 0; -1]]%Z);
    reflexivity.
Defined.

Lemma sphere_center_witness :
  exists (vs : slots Z) (v : list Z),
    back_substitute Sphere [-1; -1; -1; 5]%Z = Some vs
    /\ populated vs = Some v
    /\ @centered Z Z_scalar (stub_kernels 1%Z) v
       = Some ([-1; -1; -1]%Z,
               mdiv [[-1; 0; 0]; [0; -1; 0]; [0; 0; -1]]%Z (-8)%Z).
Proof.
  apply (@sphere_center Z Z_scalar (stub_kernels 1%Z) InitialRing.Zth
           (-1) (-1) (-1) 5 1 1 1)%Z; reflexivity.
Defined.

Lemma normal_system_square_witness :
  exists D : list (list Z),
    design_matrix Sphere [(1, 2, 3); (4, 5, 6)]%Z = Some D
    /\ length (normal_matrix D) = 4
    /\ transpose 4 (normal_matrix D) = normal_matrix D.
Proof.
  destruct (@normal_system_square Z Z_scalar InitialRing.Zth Sphere
              [(1, 2, 3); (4, 5, 6)]%Z) as [D [HD [Hl [_ [_ Ht]]]]].
  exists D. split; [exact HD|]. split; [exact Hl | exact Ht].
Defined.

Lemma fit_full_perm_witness :
  @fit_full Z Z_scalar Z_kernels [(1, 2, 3); (4, 5, 6)]%Z dest dest dest
    Arbitrary
  = @fit_full Z Z_scalar Z_kernels [(4, 5, 6); (1, 2, 3)]%Z dest dest dest
      Arbitrary.
Proof.
  apply (@fit_full_perm Z Z_scalar Z_kernels InitialRing.Zth
           [(1, 2, 3); (4, 5, 6)]%Z [(4, 5, 6); (1, 2, 3)]%Z
           dest dest dest Arbitrary).
  apply perm_swap.
Defined.

(** ** More on the radii in binary64 *)

Section Binary64Radii.
Local Open Scope Z_scope.

Lemma shr_fexp_exponent (m e : Z) (l : location) :
  emin prec emax <= snd (shr_fexp prec emax m e l).
Proof.
  unfold shr_fexp, shr.
  destruct (fexp prec emax (Zdigits2 m + e) - e) as [|n|n] eqn:Hn;
    cbn [snd]; unfold fexp, emin, prec, emax in *; lia.
Qed.

(** A positive mantissa above the smallest subnormal rounds to a finite
    number of the sign asked for, or overflows to its infinity. *)
Lemma binary_round_aux_outcome (sx : bool) (m e : Z) (l : location) :
  0 < m -> emin prec emax < Zdigits2 m + e ->
  (exists (m' : positive) (e' : Z),
      binary_round_aux prec emax sx m e l = S754_finite sx m' e'
      /\ emin prec emax <= e')
  \/ binary_round_aux prec emax sx m e l = S754_infinity sx.
Proof.
  intros Hm He. unfold binary_round_aux.
  destruct (@shr_fexp_positive m e l Hm He) as [H1 H2].
  destruct (shr_fexp prec emax m e l) as [mrs' e']. cbn [fst snd] in H1, H2.
  pose proof (round_nearest_even_ge (shr_m mrs') (loc_of_shr_record mrs')) as Hr.
  assert (Hm' : 0 < round_nearest_even (shr_m mrs') (loc_of_shr_record mrs'))
    by lia.
  assert (He' : emin prec emax
                < Zdigits2 (round_nearest_even (shr_m mrs')
                              (loc_of_shr_record mrs')) + e').
  { pose proof (@Zdigits2_le _ _ H1 Hr). lia. }
  destruct (@shr_fexp_positive _ e' loc_Exact Hm' He') as [H3 _].
  pose proof (shr_fexp_exponent
                (round_nearest_even (shr_m mrs') (loc_of_shr_record mrs'))
                e' loc_Exact) as H4.
  destruct (shr_fexp prec emax _ e' loc_Exact) as [mrs'' e''].
  cbn [fst] in H3. cbn [snd] in H4.
  destruct (shr_m mrs'') as [|p|p]; try lia.
  destruct (e'' <=? emax - prec).
  - left. exists p, e''. split; [reflexivity | exact H4].
  - right. reflexivity.
Qed.

Lemma sqrt_core_positive (m : positive) (e : Z) (q e' : Z) (l : location) :
  emin prec emax <= e ->
  SFsqrt_core_binary prec emax (Zpos m) e = (q, e', l) ->
  0 < q /\ emin prec emax < Zdigits2 q + e'.
Proof.
  intros He Hcore. unfold SFsqrt_core_binary in Hcore.
  cbn [Zdigits2] in Hcore.
  set (d := Zpos (digits2_pos m)) in *.
  set (x := Z.min (fexp prec emax (Z.div2 (d + e + 1))) (Z.div2 e)) in *.
  assert (Hx : emin prec emax <= x /\ 2 * x <= e).
  { unfold x, fexp, emin, prec, emax in *. rewrite !Z.div2_div.
    pose proof (Z.div_mod e 2). pose proof (Z.mod_pos_bound e 2).
    pose proof (Z.div_mod (d + e + 1) 2).
    pose proof (Z.mod_pos_bound (d + e + 1) 2). lia. }
  destruct Hx as [Hx1 Hx2].
  assert (Hpos : 0 < match e - 2 * x with
                     | 0 => Z.pos m
                     | Z.pos _ => Z.shiftl (Z.pos m) (e - 2 * x)
                     | Z.neg _ => 0
                     end).
  { destruct (e - 2 * x) as [|s|s] eqn:Hs; try lia.
    rewrite Z.shiftl_mul_pow2 by lia.
    apply Z.mul_pos_pos; [lia | apply Z.pow_pos_nonneg; lia]. }
  destruct (Z.sqrtrem _) as [q' r] eqn:Hsq.
  injection Hcore as <- <- _.
  assert (Hq : 0 < q').
  { pose proof (Z.sqrtrem_sqrt (match e - 2 * x with
                                | 0 => Z.pos m
                                | Z.pos _ => Z.shiftl (Z.pos m) (e - 2 * x)
                                | Z.neg _ => 0
                                end)) as Hs.
    rewrite Hsq in Hs. cbn [fst] in Hs. rewrite Hs.
    apply Z.sqrt_pos. exact Hpos. }
  split; [exact Hq|].
  destruct (@Zdigits2_bounds q' Hq) as [Hd _]. lia.
Qed.

Lemma sqrt_not_nan (m : positive) (e : Z) :
  emin prec emax <= e ->
  is_nan (SFsqrt prec emax (S754_finite false m e)) = false.
Proof.
  intro He. unfold SFsqrt.
  destruct (SFsqrt_core_binary prec emax (Z.pos m) e) as [[q e'] l] eqn:Hcore.
  destruct (@sqrt_core_positive m e q e' l He Hcore) as [Hq Hd].
  destruct (@binary_round_aux_outcome false q e' l Hq Hd)
    as [[m' [e'' [-> _]]] | ->]; reflexivity.
Qed.

Lemma radius_above_zero (m : positive) (e : Z) :
  bounded prec emax m e = true ->
  is_nan (radius (S754_finite false m e)) = false.
Proof.
  intro Hb. unfold radius.
  change (SFone prec emax) with (S754_finite false 4503599627370496 (-52)).
  unfold SFdiv.
  destruct (SFdiv_core_binary prec emax (Z.pos 4503599627370496) (-52)
              (Z.pos m) e) as [[mz ez] lz] eqn:Hcore.
  destruct (@div_core_one m e mz ez lz Hb Hcore) as [Hm He].
  destruct (@binary_round_aux_outcome (xorb false false) mz ez lz Hm He)
    as [[m' [e' [-> He']]] | ->].
  - apply sqrt_not_nan. exact He'.
  - reflexivity.
Qed.

(** A radius is NaN exactly when its eigenvalue is NaN or is finite with
    the sign bit set: a positive eigenvalue, however small or large, an
    infinite one and +0 never give NaN. *)
Theorem radius_nan_iff (e : spec_float) :
  valid_binary prec emax e = true ->
  is_nan (radius e) = is_nan e || negative_finite e.
Proof.
  destruct e as [[|]|[|]| |[|] m x]; intro Hv; try reflexivity.
  - simpl in Hv. rewrite (radius_below_zero m x Hv). reflexivity.
  - simpl in Hv. rewrite (radius_above_zero m x Hv). reflexivity.
Qed.
End Binary64Radii.

Lemma radius_nan_iff_witness :
  is_nan (radius (S754_finite false 1 (-1074)))
  = is_nan (S754_finite false 1 (-1074))
    || negative_finite (S754_finite false 1 (-1074)).
Proof.
  apply (radius_nan_iff (S754_finite false 1 (-1074))). reflexivity.
Defined.

(** ** No point at all, in binary64 *)

Section EmptyInput.
Variable K : Kernels spec_float.

(** A solver that answers a zero right-hand side with the zero solution. *)
Hypothesis zero_solution :
  forall (M : list (list spec_float)) (n : nat),
    bdcSvd_solve M (repeat (S754_zero false) n)
    = repeat (S754_zero false) (length M).

(** With no point, every variant sets up the zero system; its zero
    solution gives the coefficients (-1, -1, -1, 0, ..., 0), the center
    (-0, -0, -0) and [R(3,3) = 0], and the division by [-R(3,3)] hands the
    eigen solver a matrix of infinities and NaN. *)
Theorem empty_input_binary64 (type : EllipsoidType) :
  let m1 := SFopp (SFone prec emax) in
  let z := S754_zero false in
  @quadric spec_float binary64 K type []
  = Some [m1; m1; m1; z; z; z; z; z; z; z]
  /\ @centered spec_float binary64 K [m1; m1; m1; z; z; z; z; z; z; z]
     = Some ([S754_zero true; S754_zero true; S754_zero true],
             [ [S754_infinity false; S754_nan; S754_nan];
               [S754_nan; S754_infinity false; S754_nan];
               [S754_nan; S754_nan; S754_infinity false] ]).
Proof.
  intros m1 z. split.
  - unfold quadric. rewrite design_matrix_columns. cbn [bind].
    replace (solve_normal (map (fun f => map f []) (design_layout type))
               (d2 []))
      with (repeat z (design_cols type)).
    + destruct type; vm_compute; reflexivity.
    + symmetry. unfold solve_normal.
      destruct type;
        match goal with
        | |- bdcSvd_solve ?M _ = repeat _ ?k => exact (zero_solution M k)
        end.
  - assert (Hc : find_center
                   [ [m1; z; z; z]; [z; m1; z; z]; [z; z; m1; z]; [z; z; z; z] ]
                   [m1; m1; m1; z; z; z; z; z; z; z]
                 = Some [S754_zero true; S754_zero true; S754_zero true]).
    { unfold find_center.
      change (segment 3 6 [m1; m1; m1; z; z; z; z; z; z; z])
        with (Some (repeat z 3)).
      cbn [bind]. rewrite zero_solution. reflexivity. }
    unfold centered.
    change (assemble [m1; m1; m1; z; z; z; z; z; z; z])
      with (Some [ [m1; z; z; z]; [z; m1; z; z]; [z; z; m1; z]; [z; z; z; z] ]).
    cbn [bind]. rewrite Hc. vm_compute. reflexivity.
Qed.
End EmptyInput.

Lemma empty_input_binary64_witness :
  @quadric spec_float binary64 (stub_kernels (S754_zero false)) Sphere []
  = Some [SFopp (SFone prec emax); SFopp (SFone prec emax);
          SFopp (SFone prec emax); S754_zero false; S754_zero false;
          S754_zero false; S754_zero false; S754_zero false;
          S754_zero false; S754_zero false].
Proof.
  apply (@empty_input_binary64 (stub_kernels (S754_zero false))
           (fun M n => eq_refl) Sphere).
Defined.

(** ** The normal equations of two point sets put together *)

Section Accumulate.
Context {F : Type} `{Scalar F}.
Hypothesis Fring : ring_theory 0%F 1%F s_add s_mul s_sub s_opp eq.
Add Ring Fa : Fring.
Local Open Scope scalar_scope.

Lemma dot_app (a a' b b' : vec) :
  length a = length b ->
  dot (a ++ a') (b ++ b') = dot a b + dot a' b'.
Proof.
  revert b. induction a as [|x a IH]; intros [|y b] Hl; simpl in *;
    try discriminate Hl.
  - ring.
  - rewrite IH by (injection Hl as Hl; exact Hl). ring.
Qed.

Lemma vadd_map (A : Type) (p q : A -> F) (l : list A) :
  vadd (map p l) (map q l) = map (fun x => p x + q x) l.
Proof.
  unfold vadd. induction l as [|x l IH]; simpl; [reflexivity|].
  rewrite IH. reflexivity.
Qed.

Lemma madd_map (A : Type) (p q : A -> vec) (l : list A) :
  madd (map p l) (map q l) = map (fun x => vadd (p x) (q x)) l.
Proof.
  induction l as [|x l IH]; simpl; [reflexivity|].
  rewrite IH. reflexivity.
Qed.

(** The normal equations are sums over the points: those of two point
    sets put end to end are the sums, entry by entry, of those of each. *)
Theorem normal_equations_append (type : EllipsoidType)
    (data1 data2 : points) :
  exists D1 D2 D : matrix,
    design_matrix type data1 = Some D1
    /\ design_matrix type data2 = Some D2
    /\ design_matrix type (data1 ++ data2) = Some D
    /\ normal_matrix D = madd (normal_matrix D1) (normal_matrix D2)
    /\ normal_rhs D (d2 (data1 ++ data2))
       = vadd (normal_rhs D1 (d2 data1)) (normal_rhs D2 (d2 data2)).
Proof.
  do 3 eexists. do 3 (split; [apply design_matrix_columns|]).
  unfold normal_matrix, normal_rhs.
  rewrite !map_map, !d2_column. split.
  - rewrite madd_map. apply map_ext. intro f.
    rewrite !map_map, vadd_map. apply map_ext. intro g.
    rewrite !map_app. apply dot_app. rewrite !length_map. reflexivity.
  - rewrite vadd_map. apply map_ext. intro f.
    rewrite !map_app. apply dot_app. rewrite !length_map. reflexivity.
Qed.
End Accumulate.

Lemma normal_equations_append_witness :
  exists D1 D2 D : list (list Z),
    design_matrix Sphere [(1, 2, 3)]%Z = Some D1
    /\ design_matrix Sphere [(4, 5, 6)]%Z = Some D2
    /\ design_matrix Sphere ([(1, 2, 3)] ++ [(4, 5, 6)])%Z = Some D
    /\ normal_matrix D = madd (normal_matrix D1) (normal_matrix D2)
    /\ normal_rhs D (d2 ([(1, 2, 3)] ++ [(4, 5, 6)])%Z)
       = vadd (normal_rhs D1 (d2 [(1, 2, 3)]%Z))
           (normal_rhs D2 (d2 [(4, 5, 6)]%Z)).
Proof.
  apply (@normal_equations_append Z Z_scalar InitialRing.Zth Sphere
           [(1, 2, 3)]%Z [(4, 5, 6)]%Z).
Defined.

(** * Where the rounding of doubles shows *)

Section Binary64Runs.

(** C3, as it is stated, fails in doubles: for the reduced solution
    (0.7, 0.3, 0, ..., 0) of the variant Arbitrary the three quadratic
    coefficients are 0, -0.9 and -2.0999999999999996, and their sum is
    -2.9999999999999996, not -3. *)
Lemma back_substitute_sum_binary64 :
  let u0 := SFdiv prec emax (of_Z 7) (of_Z 10) in
  let u1 := SFdiv prec emax (of_Z 3) (of_Z 10) in
  let z := S754_zero false in
  exists (v : list spec_float) (s : spec_float),
    @back_substitute spec_float binary64 Arbitrary
      [u0; u1; z; z; z; z; z; z; z]
    = Some (map Some v)
    /\ @quadratic_sum spec_float binary64 v = Some s
    /\ s = S754_finite true 6755399441055743 (-51)
    /\ @s_opp spec_float binary64 three = S754_finite true 6755399441055744 (-51)
    /\ s <> @s_opp spec_float binary64 three.
Proof.
  intros u0 u1 z.
  eexists (_ :: _ :: _ :: _ :: _ :: _ :: _ :: _ :: _ :: _ :: nil). eexists.
  split; [vm_compute; reflexivity|].
  split; [vm_compute; reflexivity|].
  split; [reflexivity|]. split; [vm_compute; reflexivity|].
  vm_compute. discriminate.
Qed.


End Binary64Runs.

(** * The reordered eigenpairs and the radii *)

Section SameAxis.
Context {F : Type} `{Scalar F} {K : Kernels F}.
Local Open Scope scalar_scope.

Lemma centered_size (v c : vec) (M : matrix) :
  centered v = Some (c, M) -> length M = 3.
Proof.
  unfold centered, eigen_input. intro Hc.
  destruct (assemble v) as [A|]; [|discriminate Hc]. cbn [bind] in Hc.
  destruct (find_center A v) as [c'|]; [|discriminate Hc]. cbn [bind] in Hc.
  destruct (translation c') as [T|] eqn:HT; [|discriminate Hc].
  cbn [bind] in Hc.
  destruct (translation_shape c' HT) as [cx [cy [cz ->]]].
  destruct (entry _ 3 3) as [r33|]; [|discriminate Hc].
  cbn [bind] in Hc. injection Hc as <- <-. reflexivity.
Qed.

(** C9. In every call the pair of the eigen solver goes through
    [leastRotationAngle] before the radii are computed and before the
    optional outputs are written: the radii are computed from the
    reordered eigenvalues and the caller receives the reordered
    eigenvalues and eigenvectors. When the reordering relabels eigenpairs
    as its contract says, radius [i], output eigenvalue [i] and output
    eigenvector [i] all come from one and the same eigenpair of the
    solver, the pair [sigma i]: they belong to the same axis. *)
Theorem fit_same_axis (data : points)
    (coefficients_p eval_p evec_column_p : pointer)
    (type : EllipsoidType) (params : Parameters F) (outs : Outputs F) :
  (forall M : matrix, length M = 3 ->
     relabels (EigenSolver M) (leastRotationAngle (EigenSolver M))) ->
  fit_full data coefficients_p eval_p evec_column_p type
  = Some (params, outs) ->
  exists (v c eval : vec) (M evec : matrix) (sigma : list nat),
    quadric type data = Some v
    /\ centered v = Some (c, M)
    /\ leastRotationAngle (EigenSolver M) = (eval, evec)
    /\ eval_out outs = store eval_p eval
    /\ evec_column_out outs = store evec_column_p evec
    /\ radii params = compute_radii eval
    /\ Permutation sigma [0; 1; 2]%nat
    /\ forall i j : nat,
         nth_error sigma i = Some j ->
         nth_error (radii params) i
         = option_map (fun e => s_sqrt (1 / e))
             (nth_error (fst (EigenSolver M)) j)
         /\ nth_error eval i = nth_error (fst (EigenSolver M)) j
         /\ (column i evec = column j (snd (EigenSolver M))
             \/ column i evec = vopp (column j (snd (EigenSolver M)))).
Proof.
  intros Hlabel Hfit. unfold fit_full in Hfit.
  destruct (quadric type data) as [v|] eqn:Hq; [|discriminate Hfit].
  cbn [bind] in Hfit.
  destruct (centered v) as [[c M]|] eqn:Hc; [|discriminate Hfit].
  cbn [bind fst snd] in Hfit. injection Hfit as <- <-.
  destruct (Hlabel M (centered_size v Hc)) as [sigma [Hperm Hpair]].
  destruct (leastRotationAngle (EigenSolver M)) as [eval evec] eqn:Ho.
  exists v, c, eval, M, evec, sigma.
  do 6 (split; [first [reflexivity | assumption]|]).
  split; [exact Hperm|].
  intros i j Hij. destruct (Hpair i j Hij) as [Hval Hvec].
  cbn [fst snd] in *. split; [|split; [exact Hval | exact Hvec]].
  cbn [radii]. unfold compute_radii, cwiseSqrt, cwiseInverse.
  rewrite !nth_error_map, Hval.
  assert (Hmap : forall o : option F,
            option_map s_sqrt (option_map (fun e => 1 / e) o)
            = option_map (fun e => s_sqrt (1 / e)) o)
    by (intros [e|]; reflexivity).
  exact (Hmap _).
Qed.
End SameAxis.

Lemma scrambled_kernels_relabel (M : list (list spec_float)) :
  length M = 3 ->
  @relabels spec_float binary64
    (@EigenSolver _ scrambled_kernels M)
    (@leastRotationAngle _ scrambled_kernels
       (@EigenSolver _ scrambled_kernels M)).
Proof.
  intro HM. destruct M as [|r0 [|r1 [|r2 [|? ?]]]]; try discriminate HM.
  exists [1; 0; 2]%nat. split; [apply perm_swap|].
  intros i j Hij.
  destruct i as [|[|[|i]]]; simpl in Hij;
    [| | | destruct i; discriminate Hij];
    injection Hij as <-; (split; [reflexivity | left; reflexivity]).
Qed.

Lemma fit_same_axis_witness :
  exists (v c eval : list spec_float) (M evec : list (list spec_float))
         (sigma : list nat),
    @quadric spec_float binary64 scrambled_kernels Aligned
      [double_point (1, 2, 3)%Z] = Some v
    /\ @centered spec_float binary64 scrambled_kernels v = Some (c, M)
    /\ @leastRotationAngle _ scrambled_kernels
         (@EigenSolver _ scrambled_kernels M) = (eval, evec)
    /\ Some [S754_finite false 4503599627370496 (-55);
             S754_finite true 4503599627370496 (-54);
             S754_finite true 4503599627370496 (-54)] = store dest eval
    /\ Some [ [SFone prec emax; S754_zero false; S754_zero false];
              [S754_zero false; SFone prec emax; S754_zero false];
              [S754_zero false; S754_zero false; SFone prec emax] ]
       = store dest evec
    /\ [S754_finite false 6369051672525773 (-51); S754_nan; S754_nan]
       = @compute_radii spec_float binary64 eval
    /\ Permutation sigma [0; 1; 2]%nat
    /\ forall i j : nat,
         nth_error sigma i = Some j ->
         nth_error [S754_finite false 6369051672525773 (-51);
                    S754_nan; S754_nan] i
         = option_map (fun e => SFsqrt prec emax
                                  (SFdiv prec emax (SFone prec emax) e))
             (nth_error (fst (@EigenSolver _ scrambled_kernels M)) j)
         /\ nth_error eval i
            = nth_error (fst (@EigenSolver _ scrambled_kernels M)) j
         /\ (@column spec_float binary64 i evec
             = column j (snd (@EigenSolver _ scrambled_kernels M))
             \/ @column spec_float binary64 i evec
                = vopp (column j (snd (@EigenSolver _ scrambled_kernels M)))).
Proof.
  apply (@fit_same_axis spec_float binary64 scrambled_kernels
           [double_point (1, 2, 3)%Z] nullptr dest dest Aligned
           {| center := [SFopp (SFone prec emax); SFopp (SFone prec emax);
                         SFopp (SFone prec emax)];
              radii := [S754_finite false 6369051672525773 (-51);
                        S754_nan; S754_nan] |}
           {| coefficients := None;
              eval_out := Some [S754_finite false 4503599627370496 (-55);
                                S754_finite true 4503599627370496 (-54);
                                S754_finite true 4503599627370496 (-54)];
              evec_column_out :=
                Some [ [SFone prec emax; S754_zero false; S754_zero false];
                       [S754_zero false; SFone prec emax; S754_zero false];
                       [S754_zero false; S754_zero false; SFone prec emax] ]
           |}).
  - exact scrambled_kernels_relabel.
  - vm_compute. reflexivity.
Defined.

(** ** The recovery of a known ellipsoid, in exact arithmetic *)

Section Recovery.
Context {F : Type} `{Scalar F} {K : Kernels F}.
Hypothesis Ffield :
  field_theory 0%F 1%F s_add s_mul s_sub s_opp s_div (fun x => (1 / x)%F) eq.
Add Field Ff : Ffield.
Local Open Scope scalar_scope.

Lemma dot_zero_map (A : Type) (l : list A) (u : vec) :
  dot (map (fun _ => 0) l) u = 0.
Proof.
  revert u. induction l as [|a l IH]; intros [|x u]; simpl; try reflexivity.
  rewrite IH. ring.
Qed.

Lemma dot_map_linear (A : Type) (k : F) (a b : A -> F) (l : list A)
    (u : vec) :
  dot (map (fun f => k * a f + b f) l) u
  = k * dot (map a l) u + dot (map b l) u.
Proof.
  revert u. induction l as [|f l IH]; intros [|x u]; simpl; try ring.
  rewrite IH. ring.
Qed.

(** A vector that fits every point solves the normal equations. *)
Lemma normal_solution (P : Type) (fs : list (P -> F)) (g : P -> F)
    (u : vec) (l : list P) :
  (forall p, In p l -> dot (map (fun f => f p) fs) u = g p) ->
  matvec (normal_matrix (map (fun f => map f l) fs)) u
  = normal_rhs (map (fun f => map f l) fs) (map g l).
Proof.
  intro Hfit. unfold matvec, normal_matrix, normal_rhs.
  rewrite !map_map. apply map_ext. intro f. rewrite map_map.
  induction l as [|p l IH]; simpl.
  - apply dot_zero_map.
  - rewrite (dot_map_linear (f p) (fun f' => f' p)
               (fun f' => dot (map f l) (map f' l)) fs u).
    rewrite IH by (intros q Hq; apply Hfit; right; exact Hq).
    rewrite (Hfit p) by (left; reflexivity). reflexivity.
Qed.

(** The laws of a field contain those of a commutative ring. *)
Lemma field_ring : ring_theory 0 1 s_add s_mul s_sub s_opp eq.
Proof. exact (F_R Ffield). Qed.

(** Back-substitution of the known solution. *)
Lemma known_back_substitute (s00 s01 s02 s11 s12 s22 c0 c1 c2 : F) :
  s00 + s11 + s22 <> 0 ->
  back_substitute Arbitrary
    (known_solution s00 s01 s02 s11 s12 s22 c0 c1 c2)
  = Some (map Some (known_coefficients (scale_of s00 s11 s22)
                      s00 s01 s02 s11 s12 s22 c0 c1 c2)).
Proof.
  intro Ht. unfold known_solution, known_coefficients. simpl.
  unfold scale_of, three, two.
  do 2 f_equal; [|f_equal; [|f_equal]]; f_equal; field; exact Ht.
Qed.

(** A point of the quadric is fitted by the known solution. *)
Lemma known_solution_fits (s00 s01 s02 s11 s12 s22 c0 c1 c2 : F)
    (p : F * F * F) :
  s00 + s11 + s22 <> 0 ->
  quadratic_form s00 s01 s02 s11 s12 s22 (sub3 p (c0, c1, c2)) = 1 ->
  dot (design_row Arbitrary p)
    (known_solution s00 s01 s02 s11 s12 s22 c0 c1 c2)
  = (let '(x, y, z) := p in x * x + y * y + z * z).
Proof.
  intros Ht Hp. destruct p as [[x y] z].
  assert (E : dot (design_row Arbitrary (x, y, z))
                (known_solution s00 s01 s02 s11 s12 s22 c0 c1 c2)
              = x * x + y * y + z * z
                + scale_of s00 s11 s22
                  * (quadratic_form s00 s01 s02 s11 s12 s22
                       (sub3 (x, y, z) (c0, c1, c2)) - 1)).
  { unfold known_solution, known_coefficients, scale_of, quadratic_form,
      three, two. simpl. unfold two. field. exact Ht. }
  rewrite E, Hp. ring.
Qed.

Lemma nonzero_product (a b : F) : a <> 0 -> a * b = 0 -> b = 0.
Proof.
  intros Ha Hab. assert (E : b = a * b / a) by (field; exact Ha).
  rewrite E, Hab. field. exact Ha.
Qed.

Lemma scale_of_nonzero (s00 s11 s22 : F) :
  three <> 0 -> s00 + s11 + s22 <> 0 -> scale_of s00 s11 s22 <> 0.
Proof.
  intros H3 Ht Hk. apply H3.
  assert (E : three = - scale_of s00 s11 s22 * (s00 + s11 + s22))
    by (unfold scale_of; field; exact Ht).
  rewrite E, Hk. ring.
Qed.

(** From the known coefficients to the center and the shape matrix,
    when the solver returns the solution of the center system. *)
Lemma known_centered (k s00 s01 s02 s11 s12 s22 c0 c1 c2 : F) (A : matrix) :
  let v := known_coefficients k s00 s01 s02 s11 s12 s22 c0 c1 c2 in
  k <> 0 ->
  assemble v = Some A ->
  bdcSvd_solve (block33 A) (firstn 3 (skipn 6 v)) = [- c0; - c1; - c2] ->
  centered v
  = Some ([c0; c1; c2],
          [ [s00; s01; s02]; [s01; s11; s12]; [s02; s12; s22] ]).
Proof.
  intros v Hk HA Hsol. subst v.
  assert (E : forall a : F, - - a = a) by (intro a; ring).
  pose (T := [ [1; 0; 0; 0]; [0; 1; 0; 0]; [0; 0; 1; 0]; [c0; c1; c2; 1] ]).
  rewrite (@centered_steps _ _ _ _ [c0; c1; c2] A T (- k)).
  - unfold known_coefficients in HA. simpl in HA. injection HA as <-.
    subst T. rewrite translate_block by exact field_ring.
    unfold mdiv, block33. simpl.
    assert (Ek : forall a : F, k * a / - - k = a)
      by (intro a; field; rewrite E; exact Hk).
    rewrite !Ek. reflexivity.
  - exact HA.
  - unfold find_center, known_coefficients. simpl.
    unfold known_coefficients in Hsol. simpl in Hsol.
    rewrite Hsol. simpl. rewrite !E. reflexivity.
  - reflexivity.
  - unfold known_coefficients in HA. simpl in HA. injection HA as <-.
    unfold translate, mmul, entry. simpl. f_equal.
    unfold quadratic_form, two. ring.
Qed.

Lemma sq_nonzero (a : F) : a <> 0 -> sq a <> 0.
Proof.
  intros Ha Hs. apply Ha. exact (@nonzero_product a a Ha Hs).
Qed.

(** The points of the ellipsoid are those of the quadric of its shape
    matrix. *)
Lemma shape_quadric (c r : F * F * F) (B : basis) (p : F * F * F)
    (s00 s01 s02 s11 s12 s22 : F) :
  fst (fst r) <> 0 -> snd (fst r) <> 0 -> snd r <> 0 ->
  shape r B = [ [s00; s01; s02]; [s01; s11; s12]; [s02; s12; s22] ] ->
  on_ellipsoid c r B p ->
  quadratic_form s00 s01 s02 s11 s12 s22 (sub3 p c) = 1.
Proof.
  destruct r as [[r0 r1] r2].
  destruct B as [[[[b00 b01] b02] [[b10 b11] b12]] [[b20 b21] b22]].
  destruct c as [[c0 c1] c2]. destruct p as [[x y] z]. simpl.
  intros H0 H1 H2 HS Hp. injection HS; intros; subst.
  etransitivity; [|exact Hp]. unfold quadratic_form, sq, dot3, two. field.
  split; [exact H2|]. split; [exact H1 | exact H0].
Qed.

(** With orthonormal axes, the trace of the shape matrix is the sum of
    the inverse squared radii. *)
Lemma shape_trace (r0 r1 r2 : F) (B : basis)
    (s00 s01 s02 s11 s12 s22 : F) :
  r0 <> 0 -> r1 <> 0 -> r2 <> 0 ->
  orthonormal B ->
  shape (r0, r1, r2) B
  = [ [s00; s01; s02]; [s01; s11; s12]; [s02; s12; s22] ] ->
  s00 + s11 + s22 = 1 / sq r0 + 1 / sq r1 + 1 / sq r2.
Proof.
  destruct B as [[[[b00 b01] b02] [[b10 b11] b12]] [[b20 b21] b22]]. simpl.
  intros H0 H1 H2 [N0 [N1 [N2 _]]] HS. injection HS; intros; subst.
  assert (E : b00 * b00 / sq r0 + b10 * b10 / sq r1 + b20 * b20 / sq r2
              + (b01 * b01 / sq r0 + b11 * b11 / sq r1 + b21 * b21 / sq r2)
              + (b02 * b02 / sq r0 + b12 * b12 / sq r1 + b22 * b22 / sq r2)
              = dot3 (b00, b01, b02) (b00, b01, b02) / sq r0
                + dot3 (b10, b11, b12) (b10, b11, b12) / sq r1
                + dot3 (b20, b21, b22) (b20, b21, b22) / sq r2).
  { unfold dot3, sq. field.
    split; [exact H2|]. split; [exact H1 | exact H0]. }
  simpl in E. rewrite E, N0, N1, N2. reflexivity.
Qed.

(** With orthonormal axes and radii that are not zero, a multiple of the
    shape matrix by a scalar that is not zero is a system with one
    solution at most. *)
Lemma shape_determined (r0 r1 r2 k : F) (B : basis)
    (s00 s01 s02 s11 s12 s22 : F) :
  r0 <> 0 -> r1 <> 0 -> r2 <> 0 -> k <> 0 ->
  orthonormal B ->
  shape (r0, r1, r2) B
  = [ [s00; s01; s02]; [s01; s11; s12]; [s02; s12; s22] ] ->
  determined [ [k * s00; k * s01; k * s02];
               [k * s01; k * s11; k * s12];
               [k * s02; k * s12; k * s22] ].
Proof.
  destruct B as [[[[b00 b01] b02] [[b10 b11] b12]] [[b20 b21] b22]].
  intros H0 H1 H2 Hk [N0 [N1 [N2 [G01 [G02 G12]]]]] HS.
  simpl in HS. injection HS; intros; subst.
  intros y z Hy Hz Hyz.
  destruct y as [|y0 [|y1 [|y2 [|? ?]]]]; try discriminate Hy.
  destruct z as [|z0 [|z1 [|z2 [|? ?]]]]; try discriminate Hz.
  unfold matvec in Hyz. simpl in Hyz. injection Hyz as E0 E1 E2.
  set (b0 := (b00, b01, b02)) in *.
  set (b1 := (b10, b11, b12)) in *.
  set (b2 := (b20, b21, b22)) in *.
  set (d := (y0 - z0, y1 - z1, y2 - z2)).
  assert (P : k * (dot3 b0 b0 * dot3 b0 d / sq r0
                   + dot3 b0 b1 * dot3 b1 d / sq r1
                   + dot3 b0 b2 * dot3 b2 d / sq r2) = 0
              /\ k * (dot3 b0 b1 * dot3 b0 d / sq r0
                      + dot3 b1 b1 * dot3 b1 d / sq r1
                      + dot3 b1 b2 * dot3 b2 d / sq r2) = 0
              /\ k * (dot3 b0 b2 * dot3 b0 d / sq r0
                      + dot3 b1 b2 * dot3 b1 d / sq r1
                      + dot3 b2 b2 * dot3 b2 d / sq r2) = 0).
  { match type of E0 with ?l0 = ?m0 =>
    match type of E1 with ?l1 = ?m1 =>
    match type of E2 with ?l2 = ?m2 =>
      assert (Q : forall x0 x1 x2 : F,
                x0 * (l0 - m0) + x1 * (l1 - m1) + x2 * (l2 - m2) = 0)
        by (intros; rewrite E0, E1, E2; ring);
      pose proof (Q b00 b01 b02) as Q0;
      pose proof (Q b10 b11 b12) as Q1;
      pose proof (Q b20 b21 b22) as Q2
    end end end.
    split; [rewrite <- Q0 | split; [rewrite <- Q1 | rewrite <- Q2]];
      unfold dot3, b0, b1, b2, d, sq; field; nonzero. }
  unfold sq in P.
  rewrite N0, N1, N2, G01, G02, G12 in P.
  destruct P as [P0 [P1 P2]].
  assert (D : dot3 b0 d = 0 /\ dot3 b1 d = 0 /\ dot3 b2 d = 0).
  { split; [|split].
    - match type of P0 with ?l = _ => transitivity (l * (r0 * r0) / k) end.
      + field. nonzero.
      + rewrite P0. field. nonzero.
    - match type of P1 with ?l = _ => transitivity (l * (r1 * r1) / k) end.
      + field. nonzero.
      + rewrite P1. field. nonzero.
    - match type of P2 with ?l = _ => transitivity (l * (r2 * r2) / k) end.
      + field. nonzero.
      + rewrite P2. field. nonzero. }
  destruct D as [D0 [D1 D2]].
  set (det := b00 * (b11 * b22 - b12 * b21) - b01 * (b10 * b22 - b12 * b20)
              + b02 * (b10 * b21 - b11 * b20)).
  assert (Hdet : det * det = 1).
  { transitivity (dot3 b0 b0 * dot3 b1 b1 * dot3 b2 b2
                  + two * dot3 b0 b1 * dot3 b1 b2 * dot3 b0 b2
                  - dot3 b0 b0 * (dot3 b1 b2 * dot3 b1 b2)
                  - dot3 b1 b1 * (dot3 b0 b2 * dot3 b0 b2)
                  - dot3 b2 b2 * (dot3 b0 b1 * dot3 b0 b1)).
    - unfold det, dot3, b0, b1, b2, two. ring.
    - rewrite N0, N1, N2, G01, G02, G12. unfold two. ring. }
  assert (C0 : det * (y0 - z0)
               = dot3 b0 d * (b11 * b22 - b12 * b21)
                 - dot3 b1 d * (b01 * b22 - b02 * b21)
                 + dot3 b2 d * (b01 * b12 - b02 * b11))
    by (unfold det, dot3, b0, b1, b2, d; ring).
  assert (C1 : det * (y1 - z1)
               = - (dot3 b0 d * (b10 * b22 - b12 * b20))
                 + dot3 b1 d * (b00 * b22 - b02 * b20)
                 - dot3 b2 d * (b00 * b12 - b02 * b10))
    by (unfold det, dot3, b0, b1, b2, d; ring).
  assert (C2 : det * (y2 - z2)
               = dot3 b0 d * (b10 * b21 - b11 * b20)
                 - dot3 b1 d * (b00 * b21 - b01 * b20)
                 + dot3 b2 d * (b00 * b11 - b01 * b10))
    by (unfold det, dot3, b0, b1, b2, d; ring).
  rewrite D0, D1, D2 in C0, C1, C2.
  assert (Y : forall a b : F, det * (a - b) = 0 -> a = b).
  { intros a b Hab. transitivity (det * det * (a - b) + b).
    - rewrite Hdet. ring.
    - transitivity (det * (det * (a - b)) + b); [ring|].
      rewrite Hab. ring. }
  rewrite (Y y0 z0) by (rewrite C0; ring).
  rewrite (Y y1 z1) by (rewrite C1; ring).
  rewrite (Y y2 z2) by (rewrite C2; ring).
  reflexivity.
Qed.

Lemma shape_entries (r : F * F * F) (B : basis) :
  exists s00 s01 s02 s11 s12 s22 : F,
    shape r B = [ [s00; s01; s02]; [s01; s11; s12]; [s02; s12; s22] ].
Proof.
  destruct r as [[r0 r1] r2].
  destruct B as [[[[b00 b01] b02] [[b10 b11] b12]] [[b20 b21] b22]].
  simpl. do 6 eexists. reflexivity.
Qed.

Lemma Forall2_map_In (A : Type) (P : A -> A -> Prop) (g : A -> A)
    (l : list A) :
  (forall e, In e l -> P (g e) e) -> Forall2 P (map g l) l.
Proof.
  induction l as [|e l IH]; intro Hl; simpl; constructor.
  - apply Hl. left. reflexivity.
  - apply IH. intros e' He'. apply Hl. right. exact He'.
Qed.

(** The radii of the inverse squared radii. *)
Lemma radius_of_inverse_square (rho : F) :
  rho <> 0 -> s_sqrt (sq rho) = rho -> s_sqrt (1 / (1 / sq rho)) = rho.
Proof.
  intros Hr Hs. replace (1 / (1 / sq rho)) with (sq rho); [exact Hs|].
  unfold sq. field. split; [exact Hr | exact (F_1_neq_0 Ffield)].
Qed.

(** C1, in exact arithmetic. The scalars form a field where 1 + 1 + 1 is
    not zero, and the square root is exact on the squares of the radii.
    The points are on the ellipsoid of center [c], of radii [r] none of
    which is zero, of orthonormal axes [B], and the sum of the inverse
    squared radii is not zero. Their normal equations have one solution
    at most, the solver returns a solution of them and of the system of
    the center, and the eigen solver followed by the reordering lists
    the inverse squared radii, the eigenvalues of the matrix of the
    ellipsoid, in some order. Then [fit] with [Arbitrary] returns the
    center [c] exactly and, as radii, the radii [r] in the order in which
    their eigenvalues are listed: a permutation of [r]. The result is
    the same for every ordering of the points. *)
Theorem fit_recovers_ellipsoid (c0 c1 c2 r0 r1 r2 : F) (B : basis)
    (data data' : points) (coefficients_p eval_p evec_column_p : pointer) :
  three <> 0 -> r0 <> 0 -> r1 <> 0 -> r2 <> 0 ->
  1 / sq r0 + 1 / sq r1 + 1 / sq r2 <> 0 ->
  s_sqrt (sq r0) = r0 -> s_sqrt (sq r1) = r1 -> s_sqrt (sq r2) = r2 ->
  orthonormal B ->
  Forall (on_ellipsoid (c0, c1, c2) (r0, r1, r2) B) data ->
  (forall D : matrix,
     design_matrix Arbitrary data = Some D ->
     determined (normal_matrix D)
     /\ solves (normal_matrix D) (normal_rhs D (d2 data))
          (solve_normal D (d2 data))) ->
  (forall (v : vec) (A : matrix) (b : vec),
     quadric Arbitrary data = Some v ->
     assemble v = Some A ->
     segment 3 6 v = Some b ->
     solves (block33 A) b (bdcSvd_solve (block33 A) b)) ->
  Permutation
    (fst (leastRotationAngle (EigenSolver (shape (r0, r1, r2) B))))
    [1 / sq r0; 1 / sq r1; 1 / sq r2] ->
  Permutation data data' ->
  exists (params : Parameters F) (outs : Outputs F),
    fit_full data' coefficients_p eval_p evec_column_p Arbitrary
    = Some (params, outs)
    /\ fit_full data coefficients_p eval_p evec_column_p Arbitrary
       = Some (params, outs)
    /\ center params = [c0; c1; c2]
    /\ Permutation (radii params) [r0; r1; r2]
    /\ Forall2 (fun rho e => e = 1 / sq rho) (radii params)
         (fst (leastRotationAngle (EigenSolver (shape (r0, r1, r2) B)))).
Proof.
  intros H3 H0 H1 H2 Htr Q0 Q1 Q2 HB Hon Hnormal Hcenter Heig Hperm.
  destruct (shape_entries (r0, r1, r2) B)
    as [s00 [s01 [s02 [s11 [s12 [s22 HS]]]]]].
  assert (Ht : s00 + s11 + s22 <> 0)
    by (rewrite (@shape_trace r0 r1 r2 B s00 s01 s02 s11 s12 s22 H0 H1 H2 HB HS);
        exact Htr).
  pose proof (@scale_of_nonzero s00 s11 s22 H3 Ht) as Hk.
  set (k := scale_of s00 s11 s22) in *.
  set (u := known_solution s00 s01 s02 s11 s12 s22 c0 c1 c2).
  set (v := known_coefficients k s00 s01 s02 s11 s12 s22 c0 c1 c2).
  destruct (Hnormal _ (design_matrix_columns Arbitrary data))
    as [Hdet [Hlen Hsol]].
  assert (Hu : solve_normal (map (fun f => map f data)
                               (design_layout Arbitrary)) (d2 data) = u).
  { apply Hdet.
    - exact Hlen.
    - unfold normal_matrix. rewrite !length_map. reflexivity.
    - rewrite Hsol, d2_column. symmetry. apply normal_solution.
      intros p Hp. apply (@known_solution_fits s00 s01 s02 s11 s12 s22 c0 c1 c2 p Ht).
      apply (@shape_quadric (c0, c1, c2) (r0, r1, r2) B p); try assumption.
      exact (proj1 (Forall_forall _ _) Hon p Hp). }
  assert (Hq : quadric Arbitrary data = Some v).
  { unfold quadric. rewrite design_matrix_columns. cbn [bind].
    rewrite Hu. unfold u.
    rewrite (@known_back_substitute s00 s01 s02 s11 s12 s22 c0 c1 c2 Ht).
    cbn [bind]. apply populated_map_Some. }
  destruct (Hcenter v _ _ Hq eq_refl eq_refl) as [Hlc Hsc].
  assert (Hc : centered v
               = Some ([c0; c1; c2],
                       [ [s00; s01; s02]; [s01; s11; s12];
                         [s02; s12; s22] ])).
  { apply (@known_centered k s00 s01 s02 s11 s12 s22 c0 c1 c2 _ Hk eq_refl).
    apply (@shape_determined r0 r1 r2 k B s00 s01 s02 s11 s12 s22
             H0 H1 H2 Hk HB HS).
    - exact Hlc.
    - reflexivity.
    - etransitivity; [exact Hsc|].
      unfold matvec. simpl.
      repeat (apply (f_equal2 (@cons F)); [ring|]). reflexivity. }
  rewrite <- HS in Hc.
  assert (Hfit : forall d : points,
            quadric Arbitrary d = Some v ->
            fit_full d coefficients_p eval_p evec_column_p Arbitrary
            = Some ({| center := [c0; c1; c2];
                       radii := compute_radii
                                  (fst (leastRotationAngle
                                          (EigenSolver
                                             (shape (r0, r1, r2) B)))) |},
                    {| coefficients := store coefficients_p v;
                       eval_out := store eval_p
                                     (fst (leastRotationAngle
                                             (EigenSolver
                                                (shape (r0, r1, r2) B))));
                       evec_column_out :=
                         store evec_column_p
                           (snd (leastRotationAngle
                                   (EigenSolver
                                      (shape (r0, r1, r2) B)))) |})).
  { intros d Hd. unfold fit_full. rewrite Hd. cbn [bind]. rewrite Hc.
    reflexivity. }
  assert (Hq' : quadric Arbitrary data' = Some v).
  { rewrite <- Hq. unfold quadric.
    destruct (@normal_equations_perm _ _ field_ring Arbitrary data data' _ _ Hperm
                (design_matrix_columns Arbitrary data)
                (design_matrix_columns Arbitrary data')) as [HM Hb].
    rewrite !design_matrix_columns. cbn [bind]. unfold solve_normal.
    rewrite HM, Hb. reflexivity. }
  do 2 eexists. split; [exact (Hfit data' Hq')|].
  split; [exact (Hfit data Hq)|]. cbn [center radii].
  split; [reflexivity|].
  set (g := fun e : F => s_sqrt (1 / e)).
  assert (Hg : compute_radii
                 (fst (leastRotationAngle
                         (EigenSolver (shape (r0, r1, r2) B))))
               = map g (fst (leastRotationAngle
                               (EigenSolver (shape (r0, r1, r2) B))))).
  { unfold compute_radii, cwiseSqrt, cwiseInverse. rewrite map_map.
    reflexivity. }
  rewrite Hg.
  assert (G0 : g (1 / sq r0) = r0) by (apply radius_of_inverse_square; assumption).
  assert (G1 : g (1 / sq r1) = r1) by (apply radius_of_inverse_square; assumption).
  assert (G2 : g (1 / sq r2) = r2) by (apply radius_of_inverse_square; assumption).
  split.
  - replace [r0; r1; r2] with (map g [1 / sq r0; 1 / sq r1; 1 / sq r2])
      by (simpl; rewrite G0, G1, G2; reflexivity).
    apply Permutation_map. exact Heig.
  - apply Forall2_map_In. intros e He.
    apply (Permutation_in _ Heig) in He.
    destruct He as [<-|[<-|[<-|[]]]]; [rewrite G0|rewrite G1|rewrite G2];
      reflexivity.
Qed.
End Recovery.

(** The laws of a field hold for the real numbers. *)
Lemma real_field :
  field_theory 0%R 1%R Rplus Rmult Rminus Ropp Rdiv (fun x => (1 / x)%R) eq.
Proof.
  constructor.
  - exact RTheory.
  - exact R1_neq_R0.
  - intros p q. unfold Rdiv. ring.
  - intros p Hp. field. exact Hp.
Qed.

(** The nine points are on the ellipsoid of center [(1, 2, 3)], under
    both of its descriptions. *)
Lemma sampled_upright :
  Forall (@on_ellipsoid R real (1, 2, 3)%R (5, 10, 15)%R upright)
    (map real_point sampled).
Proof.
  repeat constructor; unfold on_ellipsoid; simpl; unfold sq; simpl; field.
Qed.

Lemma sampled_quarter_turn :
  Forall (@on_ellipsoid R real (1, 2, 3)%R (10, 5, 15)%R quarter_turn)
    (map real_point sampled).
Proof.
  repeat constructor; unfold on_ellipsoid; simpl; unfold sq; simpl; field.
Qed.

Lemma axes_orthonormal :
  @orthonormal R real upright /\ @orthonormal R real quarter_turn.
Proof. split; unfold orthonormal; simpl; repeat split; ring. Qed.

(** The doubles of the nine points have the values of the points. *)
Lemma sampled_doubles :
  map (fun p => let '(x, y, z) := double_point p in
                (real_value x, real_value y, real_value z)) sampled
  = map (fun p => let '(x, y, z) := real_point p in
                  (Some x, Some y, Some z)) sampled.
Proof.
  unfold sampled. cbv [map double_point real_point].
  repeat (apply (f_equal2 (@cons _)); [|]); try reflexivity.
  all: repeat apply f_equal2; try reflexivity.
  all: match goal with
       | |- real_value (of_Z ?n) = _ =>
           let v := eval vm_compute in (of_Z n) in change (of_Z n) with v
       end.
  all: unfold real_value;
    cbv [Z.leb Z.compare Z.opp Z.pow Z.pow_pos Pos.iter Z.mul Pos.mul
         Pos.add];
    f_equal; lra.
Qed.

(** The normal equations of the nine points have one solution, the one
    that [exact_kernels] returns. *)
Lemma sampled_normal_equations (D : list (list R)) :
  @design_matrix R real Arbitrary (map real_point sampled) = Some D ->
  @determined R real (@normal_matrix R real D)
  /\ @solves R real (@normal_matrix R real D)
       (@normal_rhs R real D (@d2 R real (map real_point sampled)))
       (@solve_normal R real exact_kernels D
          (@d2 R real (map real_point sampled))).
Proof.
  intro HD. rewrite design_matrix_columns in HD. injection HD as <-.
  split.
  - intros y z Hy Hz Hyz.
    do 10 (destruct y as [|? y]; try discriminate Hy).
    do 10 (destruct z as [|? z]; try discriminate Hz).
    clear Hy Hz. revert Hyz. reals. intro Hyz.
    injection Hyz; clear Hyz; intros.
    repeat (apply (f_equal2 (@cons R)); [lra|]). reflexivity.
  - split; [reflexivity|]. reals.
    repeat (apply (f_equal2 (@cons R)); [field|]). reflexivity.
Qed.

Lemma sampled_center_system (v : list R) (A : list (list R)) (b : list R) :
  @quadric R real exact_kernels Arbitrary (map real_point sampled) = Some v ->
  assemble v = Some A ->
  segment 3 6 v = Some b ->
  @solves R real (block33 A) b
    (@bdcSvd_solve R exact_kernels (block33 A) b).
Proof.
  intros Hv HA Hb. revert Hv. reals. intro Hv. injection Hv as <-.
  revert HA Hb. reals. intros HA Hb. injection HA as <-. injection Hb as <-.
  split; [reflexivity|]. reals.
  repeat (apply (f_equal2 (@cons R)); [field|]). reflexivity.
Qed.

Lemma sampled_eigenvalues :
  Permutation
    (fst (@leastRotationAngle R exact_kernels
            (@EigenSolver R exact_kernels
               (@shape R real (10, 5, 15)%R quarter_turn))))
    [(1 / @sq R real 10); (1 / @sq R real 5); (1 / @sq R real 15)]%R.
Proof.
  reals.
  replace (0 * 0 / (10 * 10) + -1 * -1 / (5 * 5) + 0 * 0 / (15 * 15))%R
    with (1 / (5 * 5))%R by field.
  replace (1 * 1 / (10 * 10) + 0 * 0 / (5 * 5) + 0 * 0 / (15 * 15))%R
    with (1 / (10 * 10))%R by field.
  replace (0 * 0 / (10 * 10) + 0 * 0 / (5 * 5) + 1 * 1 / (15 * 15))%R
    with (1 / (15 * 15))%R by field.
  apply perm_swap.
Qed.

Lemma real_sqrt_sq (x : R) :
  (0 <= x)%R -> @s_sqrt R real (@sq R real x) = x.
Proof. intro Hx. apply sqrt_square. exact Hx. Qed.

(** The run of the theorem: the nine points, the description by the
    axes turned by a quarter of a turn and the radii (10, 5, 15), and the
    points handed over in the reverse order. *)
Lemma fit_recovers_ellipsoid_witness :
  exists (params : Parameters R) (outs : Outputs R),
    @fit_full R real exact_kernels
      (map real_point (rev sampled)) dest dest dest Arbitrary
    = Some (params, outs)
    /\ @fit_full R real exact_kernels
         (map real_point sampled) dest dest dest Arbitrary
       = Some (params, outs)
    /\ center params = [1; 2; 3]%R
    /\ Permutation (radii params) [10; 5; 15]%R
    /\ Forall2 (fun rho e => e = (1 / @sq R real rho)%R) (radii params)
         (fst (@leastRotationAngle R exact_kernels
                 (@EigenSolver R exact_kernels
                    (@shape R real (10, 5, 15)%R quarter_turn)))).
Proof.
  apply (@fit_recovers_ellipsoid R real exact_kernels real_field
           1 2 3 10 5 15 quarter_turn
           (map real_point sampled) (map real_point (rev sampled))
           dest dest dest)%R.
  - unfold three. simpl. lra.
  - simpl. lra.
  - simpl. lra.
  - simpl. lra.
  - unfold sq. simpl. lra.
  - apply real_sqrt_sq. lra.
  - apply real_sqrt_sq. lra.
  - apply real_sqrt_sq. lra.
  - exact (proj2 axes_orthonormal).
  - exact sampled_quarter_turn.
  - exact sampled_normal_equations.
  - exact sampled_center_system.
  - exact sampled_eigenvalues.
  - rewrite map_rev. apply Permutation_rev.
Defined.

(** The same run, evaluated: the radii come out as (5, 10, 15), in the
    order of the eigenvalues, and not as the (10, 5, 15) of the
    description. *)
Example fit_exact_run :
  exists outs : Outputs R,
    @fit_full R real exact_kernels (map real_point sampled)
      nullptr nullptr nullptr Arbitrary
    = Some ({| center := [1; 2; 3]%R; radii := [5; 10; 15]%R |}, outs).
Proof.
  eexists. reals. do 2 f_equal. f_equal.
  - repeat (apply (f_equal2 (@cons R)); [lra|]). reflexivity.
  - repeat (apply (f_equal2 (@cons R));
            [match goal with
             | |- sqrt ?a = ?b =>
                 replace a with (b * b)%R by field; apply sqrt_square; lra
             end|]).
    reflexivity.
Qed.

(** C1, as it is stated, fails: the nine points are on one ellipsoid
    that has two descriptions by a center, radii and orthonormal axes,
    with the radii (5, 10, 15) and with the radii (10, 5, 15); the doubles
    handed to [fit] are the points exactly; and whatever the kernels do,
    the radii returned are not within the tolerance of both. *)
Lemma known_radii_ambiguous :
  @orthonormal R real upright
  /\ @orthonormal R real quarter_turn
  /\ Forall (@on_ellipsoid R real (1, 2, 3)%R (5, 10, 15)%R upright)
       (map real_point sampled)
  /\ Forall (@on_ellipsoid R real (1, 2, 3)%R (10, 5, 15)%R quarter_turn)
       (map real_point sampled)
  /\ map (fun p => let '(x, y, z) := double_point p in
                   (real_value x, real_value y, real_value z)) sampled
     = map (fun p => let '(x, y, z) := real_point p in
                     (Some x, Some y, Some z)) sampled
  /\ forall (K : Kernels spec_float)
            (coefficients_p eval_p evec_column_p : pointer)
            (params : Parameters spec_float) (outs : Outputs spec_float),
       @fit_full spec_float binary64 K (map double_point sampled)
         coefficients_p eval_p evec_column_p Arbitrary
       = Some (params, outs) ->
       ~ (Forall2 within_tolerance (radii params) [5; 10; 15]%R
          /\ Forall2 within_tolerance (radii params) [10; 5; 15]%R).
Proof.
  split; [exact (proj1 axes_orthonormal)|].
  split; [exact (proj2 axes_orthonormal)|].
  split; [exact sampled_upright|].
  split; [exact sampled_quarter_turn|].
  split; [exact sampled_doubles|].
  intros K coefficients_p eval_p evec_column_p params outs _ [H1 H2].
  destruct (radii params) as [|x l];
    inversion H1 as [|? ? ? ? [v [Hv Ha]] _]; subst.
  inversion H2 as [|? ? ? ? [v' [Hv' Hb]] _]; subst.
  rewrite Hv in Hv'. injection Hv' as <-.
  revert Ha Hb. unfold Rabs.
  repeat destruct Rcase_abs; lra.
Qed.
